(** * Document Q&A pipeline: chunker, lexical retriever, completion client

    A shallow embedding of [api/document_processor_simple.py] and
    [ai_generator.py], with the properties of the specification stated
    over it.

    Conventions.
    - A Python [str] is a list of Unicode code points ([pystr]); offsets
      and sizes are Python [int]s, modelled by [Z], with the slice and
      negative-index rules of the language written out.
    - A [while] loop is a fuelled [Fixpoint]: [None] means the loop has not
      finished within the fuel, [Some r] that it returned [r].
    - Exceptions are values of [result]; the I/O the code performs (file
      reads, PDF extraction, HTTP requests) is supplied by an explicit
      environment, and sleeps and requests are recorded in a trace. *)

From Stdlib Require Import ZArith NArith List Bool Lia String Ascii.
From Stdlib Require Import QArith Sorted Permutation.
Import ListNotations.
Open Scope Z_scope.

(** ** Python strings *)

Module PyStr.

Definition char := N.
Definition pystr := list char.

(** [lit] reads a literal of the source as a [pystr]. *)
Definition lit (s : string) : pystr :=
  map N_of_ascii (list_ascii_of_string s).

Definition len (s : pystr) : Z := Z.of_nat (List.length s).

Definition space : char := 32%N.
Definition newline : char := 10%N.

(** [str.isspace] on one code point, which is also what [\s] matches in a
    [str] pattern and what [str.strip()] and [str.split()] remove:
    U+0009..U+000D, U+001C..U+0020, U+0085, U+00A0, U+1680,
    U+2000..U+200A, U+2028, U+2029, U+202F, U+205F, U+3000. *)
Definition is_space (c : char) : bool :=
  ((9 <=? c) && (c <=? 13) || (28 <=? c) && (c <=? 32)
   || (c =? 133) || (c =? 160) || (c =? 5760)
   || (8192 <=? c) && (c <=? 8202)
   || (c =? 8232) || (c =? 8233) || (c =? 8239) || (c =? 8287)
   || (c =? 12288))%N.

(** Indices of a slice or of a search range: a negative index counts from
    the end, and the result is clipped to [0 .. n]. *)
Definition adjust_index (n i : Z) : Z :=
  if i <? 0 then Z.max 0 (i + n) else Z.min i n.

Definition char_at (s : pystr) (i : Z) : option char :=
  if i <? 0 then None else nth_error s (Z.to_nat i).

(** [s[lo:hi]] *)
Definition slice (s : pystr) (lo hi : Z) : pystr :=
  let lo' := adjust_index (len s) lo in
  let hi' := adjust_index (len s) hi in
  firstn (Z.to_nat (hi' - lo')) (skipn (Z.to_nat lo') s).

(** The backward scan of [str.rfind] for a one-character needle: the
    candidates are [lo + k - 1], ..., [lo]. *)
Fixpoint rscan (s : pystr) (c : char) (lo : Z) (k : nat) : Z :=
  match k with
  | O => -1
  | S k' =>
      let i := lo + Z.of_nat k' in
      match char_at s i with
      | Some x => if (x =? c)%N then i else rscan s c lo k'
      | None => rscan s c lo k'
      end
  end.

(** [s.rfind(c, lo, hi)] *)
Definition rfind (s : pystr) (c : char) (lo hi : Z) : Z :=
  let lo' := adjust_index (len s) lo in
  let hi' := adjust_index (len s) hi in
  rscan s c lo' (Z.to_nat (hi' - lo')).

Fixpoint lstrip (s : pystr) : pystr :=
  match s with
  | c :: s' => if is_space c then lstrip s' else s
  | [] => []
  end.

(** [s.strip()] *)
Definition strip (s : pystr) : pystr :=
  rev (lstrip (rev (lstrip s))).

(** Truthiness of a [str]. *)
Definition truthy (s : pystr) : bool :=
  match s with [] => false | _ :: _ => true end.

Fixpoint starts_with (p s : pystr) : bool :=
  match p, s with
  | [], _ => true
  | _ :: _, [] => false
  | a :: p', b :: s' => (a =? b)%N && starts_with p' s'
  end.

(** [p in s] *)
Fixpoint contains (p s : pystr) : bool :=
  starts_with p s ||
  match s with
  | [] => false
  | _ :: s' => contains p s'
  end.

(** [s.split()]: the maximal runs of non-space characters, in order.
    [cur] is the word being read, reversed. *)
Fixpoint split_from (cur : pystr) (s : pystr) : list pystr :=
  match s with
  | [] => match cur with [] => [] | _ => [rev cur] end
  | c :: s' =>
      if is_space c
      then match cur with
           | [] => split_from [] s'
           | _ => rev cur :: split_from [] s'
           end
      else split_from (c :: cur) s'
  end.

Definition split (s : pystr) : list pystr := split_from [] s.

(** [re.sub(CLASS+, repl, s)] for a character class [cls]: every maximal
    run of characters of the class is replaced by [repl]. [in_run] tells
    that the previous character belonged to a run already replaced. *)
Fixpoint sub_runs (cls : char -> bool) (repl : pystr) (in_run : bool)
    (s : pystr) : pystr :=
  match s with
  | [] => []
  | c :: s' =>
      if cls c
      then if in_run then sub_runs cls repl true s'
           else repl ++ sub_runs cls repl true s'
      else c :: sub_runs cls repl false s'
  end.

Definition re_sub_plus (cls : char -> bool) (repl s : pystr) : pystr :=
  sub_runs cls repl false s.

(** [re.sub(CLASS, '', s)]: the characters of the class are deleted. *)
Definition re_delete (cls : char -> bool) (s : pystr) : pystr :=
  filter (fun c => negb (cls c)) s.

Definition pystr_eqb (a b : pystr) : bool :=
  if list_eq_dec N.eq_dec a b then true else false.

End PyStr.

Import PyStr.

(** ** The chunker: [SimpleDocumentProcessor] *)

Record Chunk : Type := mkChunk
  { chunk_id : Z;
    chunk_text : pystr;
    start_pos : Z;
    end_pos : Z;
    chunk_length : Z }.

Record SimpleDocumentProcessor : Type := mkProcessor
  { chunk_size : Z;
    chunk_overlap : Z }.

(** [SimpleDocumentProcessor()] *)
Definition default_processor : SimpleDocumentProcessor :=
  {| chunk_size := 1000; chunk_overlap := 100 |}.

(** The variables of the loop of [create_chunks]. *)
Record chunker_state : Type := mkState
  { cur_start : Z;
    next_id : Z;
    chunks : list Chunk }.

Section Chunker.

Variable self : SimpleDocumentProcessor.
Variable text : pystr.

(** The end of the window that starts at [start]: the hard cut
    [start + chunk_size], moved back to the last space of the window when
    the cut falls before the end of the text. *)
Definition window_end (start : Z) : Z :=
  let e := start + chunk_size self in
  if e <? len text then
    let last_space := rfind text space start e in
    if last_space >? start then last_space else e
  else e.

(** One iteration of the loop body, up to the assignment of [start]. *)
Definition chunk_iteration (st : chunker_state) : chunker_state :=
  let start := cur_start st in
  let e := window_end start in
  let ctext := strip (slice text start e) in
  let st' :=
    if truthy ctext
    then {| cur_start := start;
            next_id := next_id st + 1;
            chunks := chunks st ++
                      [ {| chunk_id := next_id st;
                           chunk_text := ctext;
                           start_pos := start;
                           end_pos := e;
                           chunk_length := len ctext |} ] |}
    else st in
  {| cur_start := e - chunk_overlap self;
     next_id := next_id st';
     chunks := chunks st' |}.

(** [while start < len(text): ...; if start >= len(text): break] *)
Fixpoint chunk_loop (fuel : nat) (st : chunker_state) : option (list Chunk) :=
  if cur_start st <? len text then
    match fuel with
    | O => None
    | S fuel' =>
        let st' := chunk_iteration st in
        if cur_start st' >=? len text then Some (chunks st')
        else chunk_loop fuel' st'
    end
  else Some (chunks st).

Definition create_chunks (fuel : nat) : option (list Chunk) :=
  chunk_loop fuel {| cur_start := 0; next_id := 0; chunks := [] |}.

(** The value [start] takes after an iteration that begins at [s]. *)
Definition next_start (s : Z) : Z := window_end s - chunk_overlap self.

(** From [s] the loop never returns, whatever it has collected so far. *)
Definition diverges_from (s : Z) : Prop :=
  forall fuel i l,
    chunk_loop fuel {| cur_start := s; next_id := i; chunks := l |} = None.

End Chunker.

(** ** Exceptions *)

Inductive exn_kind : Type :=
  | ValueError | IndexError | ZeroDivisionError | AttributeError
  | OSError | RequestException | OtherException.

Record exn : Type := mkExn { exn_kind_of : exn_kind; exn_msg : pystr }.

Inductive result (A : Type) : Type :=
  | Ok (a : A)
  | Raise (e : exn).

Arguments Ok {A} a.
Arguments Raise {A} e.

Definition bind {A B : Type} (m : result A) (k : A -> result B) : result B :=
  match m with
  | Ok a => k a
  | Raise e => Raise e
  end.

Notation "x <- m ;; k" := (bind m (fun x => k))
  (at level 61, m at next level, right associativity).

(** [l[i]] on a list: a negative index counts from the end, an index out
    of range raises [IndexError]. *)
Definition list_index {A : Type} (l : list A) (i : Z) : result A :=
  let j := if i <? 0 then i + Z.of_nat (List.length l) else i in
  if j <? 0 then Raise (mkExn IndexError (lit "list index out of range"))
  else match nth_error l (Z.to_nat j) with
       | Some x => Ok x
       | None => Raise (mkExn IndexError (lit "list index out of range"))
       end.

(** [a % b] on integers: the sign of the result is that of [b]. *)
Definition py_mod (a b : Z) : result Z :=
  if b =? 0
  then Raise (mkExn ZeroDivisionError (lit "integer division or modulo by zero"))
  else Ok (a mod b).

(** [l[:k]] *)
Definition take_upto {A : Type} (l : list A) (k : Z) : list A :=
  firstn (Z.to_nat (adjust_index (Z.of_nat (List.length l)) k)) l.

(** ** The completion client: [AIAnswerGenerator] *)

Record AIAnswerGenerator : Type := mkGenerator
  { api_keys : list pystr;
    model : pystr;
    current_key_index : Z;
    base_url : pystr;
    max_retries : Z;
    timeout : Z }.

Definition default_model : pystr := lit "provider-2/gpt-4o-mini".

(** [AIAnswerGenerator(api_keys, model)] *)
Definition init (keys : list pystr) (mdl : pystr) : result AIAnswerGenerator :=
  match keys with
  | [] => Raise (mkExn ValueError (lit "At least one API key must be provided"))
  | _ :: _ =>
      Ok {| api_keys := keys;
            model := mdl;
            current_key_index := 0;
            base_url := lit "https://api.a4f.co/v1";
            max_retries := 3;
            timeout := 30 |}
  end.

Definition set_current_key_index (self : AIAnswerGenerator) (i : Z)
  : AIAnswerGenerator :=
  {| api_keys := api_keys self;
     model := model self;
     current_key_index := i;
     base_url := base_url self;
     max_retries := max_retries self;
     timeout := timeout self |}.

Definition get_next_api_key (self : AIAnswerGenerator)
  : result (pystr * AIAnswerGenerator) :=
  key <- list_index (api_keys self) (current_key_index self) ;;
  i <- py_mod (current_key_index self + 1) (Z.of_nat (List.length (api_keys self))) ;;
  Ok (key, set_current_key_index self i).

(** What one [requests.post] brings back: a response with its status code
    and, for the body, the string at [choices[0].message.content] or the
    exception that reading it raises; or an exception of the call itself
    (connection failure, timeout). *)
Inductive http_outcome : Type :=
  | Response (status_code : Z) (content : result pystr)
  | PostRaises (e : exn).

(** The observable effects of a call. *)
Inductive event : Type :=
  | Post (api_key prompt : pystr)
  | Sleep (seconds : Z).

Definition build_prompt (question context : pystr) : pystr :=
  lit "Based on the following context from a policy document, provide a clear and concise answer to the question in exactly ONE sentence."
  ++ [newline; newline] ++ lit "Context: " ++ context
  ++ [newline; newline] ++ lit "Question: " ++ question
  ++ [newline; newline] ++ lit "Answer (one sentence only):".

(** [status_code in [429, 500, 502, 503]] *)
Definition backoff_status (status : Z) : bool :=
  existsb (Z.eqb status) [429; 500; 502; 503].

Inductive attempt_result : Type :=
  | Returned (answer : pystr)
  | NextAttempt.

(** The body of the retry loop for attempt number [attempt]. An exception
    raised inside the [try] is caught by one of the two handlers, which
    both sleep one second. *)
Definition one_attempt (outcome : http_outcome) (prompt : pystr)
    (attempt : Z) (self : AIAnswerGenerator)
  : attempt_result * AIAnswerGenerator * list event :=
  match get_next_api_key self with
  | Raise _ => (NextAttempt, self, [Sleep 1])
  | Ok (api_key, self') =>
      match outcome with
      | PostRaises _ => (NextAttempt, self', [Post api_key prompt; Sleep 1])
      | Response status content =>
          if status =? 200 then
            match content with
            | Ok answer => (Returned (strip answer), self', [Post api_key prompt])
            | Raise _ => (NextAttempt, self', [Post api_key prompt; Sleep 1])
            end
          else if backoff_status status
          then (NextAttempt, self', [Post api_key prompt; Sleep (2 ^ attempt)])
          else (NextAttempt, self', [Post api_key prompt])
      end
  end.

(** [for attempt in range(self.max_retries): ...], then [return None].
    [http a] is what the request of attempt [a] brings back. *)
Fixpoint retry_loop (http : nat -> http_outcome) (prompt : pystr)
    (attempts : list nat) (self : AIAnswerGenerator)
  : option pystr * AIAnswerGenerator * list event :=
  match attempts with
  | [] => (None, self, [])
  | a :: rest =>
      match one_attempt (http a) prompt (Z.of_nat a) self with
      | (Returned answer, self', tr) => (Some answer, self', tr)
      | (NextAttempt, self', tr) =>
          match retry_loop http prompt rest self' with
          | (r, self'', tr') => (r, self'', tr ++ tr')
          end
      end
  end.

Definition generate_answer (http : nat -> http_outcome)
    (self : AIAnswerGenerator) (question context : pystr)
  : option pystr * AIAnswerGenerator * list event :=
  retry_loop http (build_prompt question context)
    (seq 0 (Z.to_nat (max_retries self))) self.

(** Several calls in a row on the same client: call number [i] asks
    [fst q] with context [snd q] and sees the responses [https i]. *)
Fixpoint generate_answers (https : nat -> nat -> http_outcome) (i : nat)
    (qs : list (pystr * pystr)) (self : AIAnswerGenerator)
  : list (option pystr * list event) * AIAnswerGenerator :=
  match qs with
  | [] => ([], self)
  | q :: rest =>
      match generate_answer (https i) self (fst q) (snd q) with
      | (r, self', tr) =>
          match generate_answers https (S i) rest self' with
          | (rs, self'') => ((r, tr) :: rs, self'')
          end
      end
  end.

Definition posted_keys (tr : list event) : list pystr :=
  flat_map (fun e => match e with Post k _ => [k] | Sleep _ => [] end) tr.

Definition sleeps (tr : list event) : list Z :=
  flat_map (fun e => match e with Sleep d => [d] | Post _ _ => [] end) tr.

(** ** Cleaning, retrieval and orchestration: [SimpleDocumentQAProcessor] *)

(** An entry of the list [simple_text_search] returns. *)
Module Scored.
Record t : Type := mk
  { chunk : Chunk;
    score : Q;
    text : pystr }.
End Scored.

Record AnswerResult : Type := mkAnswer
  { success : bool;
    answer : pystr;
    context_used : list Chunk;
    confidence : Q;
    error : option pystr }.

Record DocResult : Type := mkDocResult
  { doc_success : bool;
    message : pystr;
    chunks_count : Z;
    total_characters : Z }.

Record SimpleDocumentQAProcessor : Type := mkQA
  { document_processor : SimpleDocumentProcessor;
    ai_generator : option AIAnswerGenerator;
    ai_enabled : bool;
    document_chunks : list Chunk;
    document_text : pystr }.

(** What the orchestrator reads from outside: the file at a path, the text
    PyPDF2 extracts from the bytes of a document (or the exception
    [extract_text_from_pdf] raises), and, for question number [i], what the
    request of each attempt brings back. *)
Record World : Type := mkWorld
  { read_file : pystr -> result (list Byte.byte);
    extract_text_from_pdf : list Byte.byte -> result pystr;
    completion : nat -> nat -> http_outcome }.

Definition Qltb (a b : Q) : bool := negb (Qle_bool b a).

(** [sep.join(l)] *)
Fixpoint join (sep : pystr) (l : list pystr) : pystr :=
  match l with
  | [] => []
  | x :: l' => match l' with [] => x | _ :: _ => x ++ sep ++ join sep l' end
  end.

(** [set(s.split())], without repetition and in order of first occurrence. *)
Definition word_set (s : pystr) : list pystr :=
  nodup (list_eq_dec N.eq_dec) (split s).

(** [a.intersection(b)] *)
Definition intersection (a b : list pystr) : list pystr :=
  filter (fun w => existsb (pystr_eqb w) b) a.

(** [l.sort(key=lambda x: x['score'], reverse=True)]: the sort of Python
    is stable and compares keys with [<] only; with [reverse=True] the
    result is in descending order and entries with equal keys keep their
    original order. An entry moves past those with a strictly greater
    score. *)
Fixpoint insert_desc (x : Scored.t) (l : list Scored.t) : list Scored.t :=
  match l with
  | [] => [x]
  | y :: l' =>
      if Qltb (Scored.score x) (Scored.score y)
      then y :: insert_desc x l'
      else x :: l
  end.

Definition sort_by_score_desc (l : list Scored.t) : list Scored.t :=
  fold_right insert_desc [] l.

Section Pipeline.

(** Three functions of the Python runtime are parameters: they rest on the
    Unicode database or on binary floating point. [unicode_alnum c] tells
    whether the code point [c >= 128] is alphanumeric, [lower] is
    [str.lower], and [fl] rounds a rational to the nearest [float]. *)
Variable unicode_alnum : char -> bool.
Variable lower : pystr -> pystr.
Variable fl : Q -> Q.

(** [\w] *)
Definition is_word (c : char) : bool :=
  if (c <? 128)%N
  then ((48 <=? c) && (c <=? 57) || (65 <=? c) && (c <=? 90)
        || (97 <=? c) && (c <=? 122) || (c =? 95))%N
  else unicode_alnum c.

(** The characters the class [[^\w\s\.\,\;\:\!\?\-\(\)]] does not match. *)
Definition kept_char (c : char) : bool :=
  is_word c || is_space c || existsb (N.eqb c) (lit ".,;:!?-()").

Definition clean_text (text : pystr) : pystr :=
  let text := re_sub_plus is_space [space] text in
  let text := re_sub_plus (N.eqb newline) [newline] text in
  let text := re_delete (fun c => negb (kept_char c)) text in
  strip text.

(** The score the loop of [simple_text_search] gives to one chunk. *)
Definition chunk_score (query : pystr) (c : Chunk) : Q :=
  let query_words := word_set (lower query) in
  let ctext := lower (chunk_text c) in
  let chunk_words := word_set ctext in
  let common_words := intersection query_words chunk_words in
  let score :=
    match query_words with
    | [] => 0%Q
    | _ :: _ =>
        fl (Z.of_nat (List.length common_words)
            # Pos.of_nat (List.length query_words))
    end in
  if contains (lower query) ctext then fl (score + (1 # 2))%Q else score.

(** One iteration of the loop: [scored_chunks.append(...)] when [score > 0]. *)
Definition score_and_collect (query : pystr) (scored_chunks : list Scored.t)
    (c : Chunk) : list Scored.t :=
  let score := chunk_score query c in
  if Qltb 0 score
  then scored_chunks ++
       [ {| Scored.chunk := c; Scored.score := score;
            Scored.text := chunk_text c |} ]
  else scored_chunks.

Definition simple_text_search (chunks : list Chunk) (query : pystr)
    (top_k : Z) : list Scored.t :=
  match chunks with
  | [] => []
  | _ :: _ =>
      let scored_chunks := fold_left (score_and_collect query) chunks [] in
      take_upto (sort_by_score_desc scored_chunks) top_k
  end.

Definition set_ai_generator (self : SimpleDocumentQAProcessor)
    (g : AIAnswerGenerator) : SimpleDocumentQAProcessor :=
  {| document_processor := document_processor self;
     ai_generator := Some g;
     ai_enabled := ai_enabled self;
     document_chunks := document_chunks self;
     document_text := document_text self |}.

Definition set_document (self : SimpleDocumentQAProcessor) (text : pystr)
    (cs : list Chunk) : SimpleDocumentQAProcessor :=
  {| document_processor := document_processor self;
     ai_generator := ai_generator self;
     ai_enabled := ai_enabled self;
     document_chunks := cs;
     document_text := text |}.

Definition failed_answer (msg : pystr) : AnswerResult :=
  {| success := false; answer := msg; context_used := [];
     confidence := 0; error := None |}.

(** [process_document]; [None] when the chunking does not finish within
    the fuel. *)
Definition process_document (world : World) (fuel : nat)
    (self : SimpleDocumentQAProcessor) (pdf_content : list Byte.byte)
  : option (DocResult * SimpleDocumentQAProcessor) :=
  match extract_text_from_pdf world pdf_content with
  | Raise e =>
      Some ({| doc_success := false;
               message := lit "Error processing document: " ++ exn_msg e;
               chunks_count := 0;
               total_characters := 0 |}, self)
  | Ok raw_text =>
      let text := clean_text raw_text in
      match create_chunks (document_processor self) text fuel with
      | None => None
      | Some cs =>
          Some ({| doc_success := true;
                   message := lit "Document processed successfully";
                   chunks_count := Z.of_nat (List.length cs);
                   total_characters := len text |},
                set_document self text cs)
      end
  end.

(** [answer_question] for question number [i]. *)
Definition answer_question (world : World) (i : nat)
    (self : SimpleDocumentQAProcessor) (question : pystr)
  : AnswerResult * SimpleDocumentQAProcessor * list event :=
  match document_chunks self with
  | [] =>
      (failed_answer
         (lit "No document has been processed yet. Please upload a document first."),
       self, [])
  | _ :: _ =>
      let relevant_chunks := simple_text_search (document_chunks self) question 3 in
      match relevant_chunks with
      | [] =>
          (failed_answer
             (lit "I could not find relevant information in the document to answer your question."),
           self, [])
      | _ :: _ =>
          let context_text :=
            join [newline; newline] (map Scored.text relevant_chunks) in
          match ai_generator self with
          | None =>
              (failed_answer
                 (lit "Error processing question: 'NoneType' object has no attribute 'generate_answer'"),
               self, [])
          | Some g =>
              match generate_answer (completion world i) g question context_text with
              | (ai_answer, g', tr) =>
                  let used := map Scored.chunk relevant_chunks in
                  let failed :=
                    {| success := false;
                       answer := lit "Failed to generate answer using AI.";
                       context_used := used;
                       confidence := 0;
                       error := Some (lit "AI generator returned None") |} in
                  (match ai_answer with
                   | Some a =>
                       if truthy a
                       then {| success := true; answer := a;
                               context_used := used;
                               confidence := (8 # 10)%Q; error := None |}
                       else failed
                   | None => failed
                   end, set_ai_generator self g', tr)
              end
          end
      end
  end.

(** The loop over the questions of [process_document_and_answer]. *)
Fixpoint answer_all (world : World) (i : nat) (questions : list pystr)
    (self : SimpleDocumentQAProcessor)
  : list pystr * SimpleDocumentQAProcessor * list event :=
  match questions with
  | [] => ([], self, [])
  | question :: rest =>
      match answer_question world i self question with
      | (answer_result, self', tr) =>
          let a :=
            if success answer_result then answer answer_result
            else lit "Error: " ++
                 match error answer_result with
                 | Some e => e
                 | None => lit "Failed to generate answer"
                 end in
          match answer_all world (S i) rest self' with
          | (answers, self'', tr') => (a :: answers, self'', tr ++ tr')
          end
      end
  end.

Definition truthy_opt {A : Type} (o : option (list A)) : bool :=
  match o with
  | Some (_ :: _) => true
  | _ => false
  end.

(** The first statement of the [try] block: the bytes of the document, or
    the exception raised on the way to them. *)
Definition document_bytes (world : World) (pdf_path : option pystr)
    (pdf_content : option (list Byte.byte)) : result (list Byte.byte) :=
  if truthy_opt pdf_path && negb (truthy_opt pdf_content) then
    match pdf_path with
    | Some path => read_file world path
    | None => Ok []
    end
  else if negb (truthy_opt pdf_content) then
    Raise (mkExn ValueError (lit "Either pdf_path or pdf_content must be provided"))
  else
    match pdf_content with
    | Some content => Ok content
    | None => Ok []
    end.

(** [process_document_and_answer]: the [try] block, then the handler
    [except Exception as e], which catches whatever the block raises.
    [None] when the chunking does not finish within the fuel. *)
Definition process_document_and_answer (world : World) (fuel : nat)
    (self : SimpleDocumentQAProcessor) (pdf_path : option pystr)
    (pdf_content : option (list Byte.byte)) (questions : option (list pystr))
  : option (list pystr * SimpleDocumentQAProcessor * list event) :=
  match document_bytes world pdf_path pdf_content with
  | Raise e =>
      let error_msg := lit "Processing failed: " ++ exn_msg e in
      Some (if truthy_opt questions
            then map (fun _ => error_msg)
                   (match questions with Some qs => qs | None => [] end)
            else [error_msg], self, [])
  | Ok content =>
      let questions :=
        if negb (truthy_opt questions) then []
        else match questions with Some qs => qs | None => [] end in
      match process_document world fuel self content with
      | None => None
      | Some (doc_result, self') =>
          if negb (doc_success doc_result)
          then Some (map (fun _ => lit "Error processing document: " ++ message doc_result)
                       questions, self', [])
          else Some (answer_all world 0 questions self')
      end
  end.

End Pipeline.

(** Instances of the runtime parameters, for the examples: no alphanumeric
    code point beyond ASCII, lower case on ASCII letters only, and no
    rounding. The examples use ASCII texts and scores that are binary
    fractions, on which these agree with Python. *)
Definition ascii_only (c : char) : bool := false.

Definition ascii_lower (s : pystr) : pystr :=
  map (fun c => if ((65 <=? c) && (c <=? 90))%N then (c + 32)%N else c) s.

Definition no_rounding (q : Q) : Q := q.

(** ** The constructor of [SimpleDocumentQAProcessor] and the summary *)

Definition comma : char := 44%N.

(** [s.split(sep)] for a one-character separator: the pieces between the
    occurrences of [sep], empty pieces included. [cur] is the piece being
    read, reversed. *)
Fixpoint split_on_from (sep : char) (cur : pystr) (s : pystr) : list pystr :=
  match s with
  | [] => [rev cur]
  | c :: s' =>
      if (c =? sep)%N
      then rev cur :: split_on_from sep [] s'
      else split_on_from sep (c :: cur) s'
  end.

Definition split_on (sep : char) (s : pystr) : list pystr :=
  split_on_from sep [] s.

(** The names [f'A4F_API_KEY_{i}'] for [i in range(1, 5)]. *)
Definition numbered_slots : list pystr :=
  [ lit "A4F_API_KEY_1"; lit "A4F_API_KEY_2";
    lit "A4F_API_KEY_3"; lit "A4F_API_KEY_4" ].

(** The first loop of the constructor: a slot that is set to a string
    that is not empty contributes its trimmed value. [getenv] is
    [os.getenv]. *)
Definition load_numbered_keys (getenv : pystr -> option pystr) : list pystr :=
  fold_left
    (fun api_keys name =>
       match getenv name with
       | Some key => if truthy key then api_keys ++ [strip key] else api_keys
       | None => api_keys
       end)
    numbered_slots [].

(** The fallback: [os.getenv('A4F_API_KEYS', '')], split at the commas. *)
Definition load_old_format_keys (getenv : pystr -> option pystr) : list pystr :=
  let old_format :=
    match getenv (lit "A4F_API_KEYS") with Some v => v | None => [] end in
  if truthy old_format
  then map strip (filter (fun key => truthy (strip key)) (split_on comma old_format))
  else [].

Definition load_api_keys (getenv : pystr -> option pystr) : list pystr :=
  let api_keys := load_numbered_keys getenv in
  match api_keys with
  | [] => load_old_format_keys getenv
  | _ :: _ => api_keys
  end.

(** [SimpleDocumentQAProcessor()] *)
Definition new_processor (getenv : pystr -> option pystr)
  : SimpleDocumentQAProcessor :=
  let api_keys := load_api_keys getenv in
  let generator :=
    match api_keys with
    | [] => None
    | _ :: _ =>
        match init api_keys default_model with
        | Ok g => Some g
        | Raise _ => None
        end
    end in
  {| document_processor := default_processor;
     ai_generator := generator;
     ai_enabled := match generator with Some _ => true | None => false end;
     document_chunks := [];
     document_text := [] |}.

(** The dictionary [get_document_summary] returns. *)
Inductive DocumentSummary : Type :=
  | NotProcessed (message : pystr)
  | Processed (total_characters total_chunks : Z) (avg_chunk_size : Q)
      (search_method preview : pystr).

Definition get_document_summary (fl : Q -> Q)
    (self : SimpleDocumentQAProcessor) : DocumentSummary :=
  if truthy (document_text self) then
    Processed
      (len (document_text self))
      (Z.of_nat (List.length (document_chunks self)))
      (match document_chunks self with
       | [] => 0%Q
       | _ :: _ =>
           fl (fold_right Z.add 0 (map chunk_length (document_chunks self))
               # Pos.of_nat (List.length (document_chunks self)))
       end)
      (lit "simple_text_search")
      (if len (document_text self) >? 500
       then slice (document_text self) 0 500 ++ lit "..."
       else document_text self)
  else NotProcessed (lit "No document processed").

(** ** The HTTP endpoint: [api/index.py] *)

Definition VALID_TOKEN : pystr :=
  lit "e6faf945ec7e60f041eb2a7069834e67ee6c31f847e7cb7f0dee01e6d11312b5".

Record HTTPException : Type := mkHTTPException
  { status_code : Z;
    detail : pystr }.

(** [verify_token], on the credentials of the bearer header. *)
Definition verify_token (credentials : pystr) : pystr + HTTPException :=
  if negb (pystr_eqb credentials VALID_TOKEN)
  then inr (mkHTTPException 401 (lit "Invalid authentication token"))
  else inl credentials.

(** What [client.get] followed by [raise_for_status] brings back: the
    content of the response, an [httpx.HTTPError], or another exception. *)
Inductive download_outcome : Type :=
  | Downloaded (content : list Byte.byte)
  | HTTPError (msg : pystr)
  | DownloadRaises (e : exn).

(** The network and the temporary files: [fetch url] is the outcome of
    the download, [write_temp content] the name of the temporary file
    that now holds [content], or the exception raised on the way. *)
Record Net : Type := mkNet
  { fetch : pystr -> download_outcome;
    write_temp : list Byte.byte -> result pystr }.

(** The world after [content] has been written to the file [path]. *)
Definition with_file (world : World) (path : pystr)
    (content : list Byte.byte) : World :=
  {| read_file := fun p => if pystr_eqb p path then Ok content
                           else read_file world p;
     extract_text_from_pdf := extract_text_from_pdf world;
     completion := completion world |}.

(** [process_questions], once FastAPI has resolved [verify_token]: the
    response (the answers, or the [HTTPException] raised) and the global
    [processor] after the request. [None] when the chunking does not
    finish within the fuel. The [finally] clause removes the temporary
    file and does not change the response. *)
Definition process_questions
    (unicode_alnum : char -> bool) (lower : pystr -> pystr) (fl : Q -> Q)
    (getenv : pystr -> option pystr) (net : Net) (world : World) (fuel : nat)
    (processor : option SimpleDocumentQAProcessor)
    (documents : pystr) (questions : list pystr)
  : option ((list pystr + HTTPException) * option SimpleDocumentQAProcessor) :=
  let processor :=
    match processor with
    | Some p => p
    | None => new_processor getenv
    end in
  match fetch net documents with
  | HTTPError msg =>
      Some (inr (mkHTTPException 400 (lit "Failed to download PDF: " ++ msg)),
            Some processor)
  | DownloadRaises e =>
      Some (inr (mkHTTPException 500 (lit "Processing failed: " ++ exn_msg e)),
            Some processor)
  | Downloaded content =>
      match write_temp net content with
      | Raise e =>
          Some (inr (mkHTTPException 500 (lit "Processing failed: " ++ exn_msg e)),
                Some processor)
      | Ok temp_path =>
          match process_document_and_answer unicode_alnum lower fl
                  (with_file world temp_path content) fuel processor
                  (Some temp_path) None (Some questions) with
          | None => None
          | Some (answers, processor', _) => Some (inl answers, Some processor')
          end
      end
  end.

(** The route [/hackrx/run]: the token is checked first. *)
Definition hackrx_run
    (unicode_alnum : char -> bool) (lower : pystr -> pystr) (fl : Q -> Q)
    (getenv : pystr -> option pystr) (net : Net) (world : World) (fuel : nat)
    (processor : option SimpleDocumentQAProcessor)
    (credentials documents : pystr) (questions : list pystr)
  : option ((list pystr + HTTPException) * option SimpleDocumentQAProcessor) :=
  match verify_token credentials with
  | inr e => Some (inr e, processor)
  | inl _ =>
      process_questions unicode_alnum lower fl getenv net world fuel
        processor documents questions
  end.

(** A network that delivers a two-byte document. *)
Definition sample_net : Net :=
  {| fetch := fun _ => Downloaded [Byte.x25; Byte.x50];
     write_temp := fun _ => Ok (lit "/tmp/tmpab12cd.pdf") |}.

(** ** Predicates of the statements, and sample data *)

(** [p] is the last occurrence of [c] before [hi]. *)
Definition last_before (s : pystr) (c : char) (p hi : Z) : Prop :=
  char_at s p = Some c /\ forall j, p < j < hi -> char_at s j <> Some c.

(** Two whitespace characters in a row. *)
Fixpoint has_ws_run (s : pystr) : bool :=
  match s with
  | [] => false
  | c1 :: t =>
      match t with
      | [] => false
      | c2 :: _ => is_space c1 && is_space c2 || has_ws_run t
      end
  end.

Definition head_not_space (s : pystr) : Prop :=
  match s with
  | [] => True
  | c :: _ => is_space c = false
  end.

(** The invariant of the loop of [create_chunks]: the chunks collected so
    far are in order and none starts after the current [start]; at
    [start = -1], reached only from a cut at a space, none starts at or
    after the next stop [chunk_size - 1 - chunk_overlap]. *)
Definition ordered_so_far (self : SimpleDocumentProcessor) (text : pystr)
    (st : chunker_state) : Prop :=
  Sorted Z.le (map start_pos (chunks st)) /\
  ((0 <= cur_start st /\
    Forall (fun c => start_pos c <= cur_start st) (chunks st))
   \/ (cur_start st = -1 /\ chunk_size self < len text /\
       Forall (fun c => start_pos c < chunk_size self - 1 - chunk_overlap self)
         (chunks st))).

Definition chunker_inv (self : SimpleDocumentProcessor) (text : pystr)
    (st : chunker_state) : Prop :=
  diverges_from self text (cur_start st) \/ ordered_so_far self text st.

Definition window_ok (self : SimpleDocumentProcessor) (c : Chunk) : Prop :=
  end_pos c - start_pos c <= chunk_size self.

Definition spec_text : pystr :=
  lit "The grace period is thirty days. The waiting period for pre-existing disease is 36 months.".

(** The rotation cursor points into the pool. *)
Definition key_inv (g : AIAnswerGenerator) : Prop :=
  0 <= current_key_index g < Z.of_nat (List.length (api_keys g)).

(** The cursor after one rotation. *)
Definition rotate (g : AIAnswerGenerator) : AIAnswerGenerator :=
  set_current_key_index g
    ((current_key_index g + 1) mod Z.of_nat (List.length (api_keys g))).

(** The credential under the cursor. *)
Definition current_key (g : AIAnswerGenerator) : pystr :=
  nth (Z.to_nat (current_key_index g)) (api_keys g) [].

Definition two_keys : list pystr := [lit "key-A"; lit "key-B"].

Definition two_key_client : AIAnswerGenerator :=
  {| api_keys := two_keys;
     model := default_model;
     current_key_index := 0;
     base_url := lit "https://api.a4f.co/v1";
     max_retries := 3;
     timeout := 30 |}.

Definition score_ge (a b : Scored.t) : Prop :=
  (Scored.score b <= Scored.score a)%Q.

Definition has_score (v : Q) (e : Scored.t) : bool :=
  Qeq_bool (Scored.score e) v.

(** The entry the loop of [simple_text_search] appends for a chunk. *)
Definition scored_entry (lower : pystr -> pystr) (fl : Q -> Q)
    (query : pystr) (c : Chunk) : Scored.t :=
  {| Scored.chunk := c;
     Scored.score := chunk_score lower fl query c;
     Scored.text := chunk_text c |}.

Definition positive (e : Scored.t) : bool := Qltb 0 (Scored.score e).

(** The entries the loop has collected when it ends. *)
Definition candidates (lower : pystr -> pystr) (fl : Q -> Q)
    (query : pystr) (cs : list Chunk) : list Scored.t :=
  filter positive (map (scored_entry lower fl query) cs).

Definition policy_chunks : list Chunk :=
  [ mkChunk 0 (lit "the policy covers") 0 17 17;
    mkChunk 1 (lit "policy") 10 16 6;
    mkChunk 2 (lit "nothing here") 20 32 12 ].

(** A world in which no file can be read and no document parsed, and a
    processor as the constructor leaves it when no credential is set. *)
Definition offline_world : World :=
  {| read_file := fun _ => Raise (mkExn OSError (lit "No such file or directory"));
     extract_text_from_pdf :=
       fun _ => Raise (mkExn OtherException (lit "Error extracting text from PDF: EOF marker not found"));
     completion := fun _ _ => PostRaises (mkExn RequestException (lit "connection refused")) |}.

Definition fresh_qa : SimpleDocumentQAProcessor :=
  {| document_processor := default_processor;
     ai_generator := None;
     ai_enabled := false;
     document_chunks := [];
     document_text := [] |}.

(** ** Further predicates on the chunker *)

(** The fields of a chunk agree with the text: its text is the trimmed
    window, it is not empty, and [length] is its number of characters. *)
Definition chunk_wellformed (text : pystr) (c : Chunk) : Prop :=
  chunk_text c = strip (slice text (start_pos c) (end_pos c))
  /\ chunk_text c <> []
  /\ chunk_length c = len (chunk_text c).

(** The ids are 0, 1, 2, ... in list order. *)
Definition dense_ids (l : list Chunk) : Prop :=
  map chunk_id l = map Z.of_nat (seq 0 (List.length l)).

(** What one iteration of [create_chunks] keeps: the ids are dense,
    [chunk_id] counts the chunks, and every chunk agrees with the text. *)
Definition fields_inv (text : pystr) (st : chunker_state) : Prop :=
  dense_ids (chunks st)
  /\ next_id st = Z.of_nat (List.length (chunks st))
  /\ Forall (chunk_wellformed text) (chunks st).

(** The window of a chunk starts inside the text and is not empty. *)
Definition starts_inside (text : pystr) (c : Chunk) : Prop :=
  0 <= start_pos c < len text /\ start_pos c < end_pos c.

(** The offset [j] lies in the window of the chunk [c]. *)
Definition in_window (j : Z) (c : Chunk) : Prop :=
  start_pos c <= j < end_pos c.

(** What the loop of [create_chunks] keeps when there is no overlap: the
    windows of the chunks follow one another without overlapping, none
    goes beyond the current [start], and every character before [start]
    that is not whitespace lies in one of them. *)
Definition tiling_inv (text : pystr) (st : chunker_state) : Prop :=
  0 <= cur_start st
  /\ StronglySorted (fun a b => end_pos a <= start_pos b) (chunks st)
  /\ Forall (fun c => end_pos c <= cur_start st) (chunks st)
  /\ (forall j x, 0 <= j < cur_start st -> char_at text j = Some x ->
                  is_space x = false ->
                  exists c, In c (chunks st) /\ in_window j c).

(** ** Further predicates on the completion client *)

(** The seconds a trace spends sleeping. *)
Definition total_sleep (tr : list event) : Z :=
  fold_right Z.add 0 (sleeps tr).

(** A response with status 200 whose body can be read. *)
Definition readable_200 (o : http_outcome) : Prop :=
  exists c, o = Response 200 (Ok c).

(** The client after [k] rotations of the cursor. *)
Fixpoint rotate_n (k : nat) (g : AIAnswerGenerator) : AIAnswerGenerator :=
  match k with
  | O => g
  | S k' => rotate_n k' (rotate g)
  end.

(** The credentials under the cursor during [k] rotations. *)
Fixpoint rotation_keys (k : nat) (g : AIAnswerGenerator) : list pystr :=
  match k with
  | O => []
  | S k' => current_key g :: rotation_keys k' (rotate g)
  end.

(** Two sequences of responses for the examples. *)
Definition flaky_then_ok (a : nat) : http_outcome :=
  match a with
  | O => Response 429 (Raise (mkExn OtherException []))
  | S O => PostRaises (mkExn RequestException (lit "timed out"))
  | _ => Response 200 (Ok (lit "  Thirty days. "))
  end.

(** Two calls that both succeed, the first one at its second attempt:
    [retry_then_ok i a] is the response to attempt [a] of call [i]. *)
Definition retry_then_ok (i a : nat) : http_outcome :=
  match i, a with
  | O, O => Response 503 (Ok [])
  | _, _ => Response 200 (Ok (lit " yes "))
  end.

Definition always_failing (a : nat) : http_outcome :=
  match a with
  | O => Response 401 (Raise (mkExn OtherException []))
  | S O => Response 200 (Raise (mkExn OtherException (lit "Expecting value")))
  | _ => PostRaises (mkExn RequestException (lit "timed out"))
  end.

(** An environment with one blank slot, and a world with a one-page
    document. *)
Definition blank_slot_env (name : pystr) : option pystr :=
  if pystr_eqb name (lit "A4F_API_KEY_2") then Some (lit "  ") else None.

Definition one_page_world : World :=
  {| read_file := fun _ => Raise (mkExn OSError (lit "No such file or directory"));
     extract_text_from_pdf := fun _ => Ok (lit "Grace period:  30 days.");
     completion := fun _ _ => PostRaises (mkExn RequestException (lit "connection refused")) |}.

(** ** Facts on the string primitives *)

Lemma adjust_index_range n i : 0 <= n -> 0 <= adjust_index n i <= n.
Proof.
  intros Hn. unfold adjust_index.
  destruct (i <? 0) eqn:E; [apply Z.ltb_lt in E | apply Z.ltb_ge in E]; lia.
Qed.

Lemma adjust_index_id n i : 0 <= i <= n -> adjust_index n i = i.
Proof.
  intros H. unfold adjust_index.
  destruct (i <? 0) eqn:E; [apply Z.ltb_lt in E | apply Z.ltb_ge in E]; lia.
Qed.

Lemma adjust_index_neg n i : i < 0 -> 0 <= i + n -> adjust_index n i = i + n.
Proof.
  intros H1 H2. unfold adjust_index.
  destruct (i <? 0) eqn:E; [apply Z.ltb_lt in E | apply Z.ltb_ge in E]; lia.
Qed.

Lemma len_nonneg s : 0 <= len s.
Proof. unfold len. lia. Qed.

(** What the backward scan returns: [-1] when the character does not occur
    among the candidates, and otherwise its last occurrence. *)
Lemma rscan_spec s c lo k :
  (rscan s c lo k = -1 /\
   forall j, lo <= j < lo + Z.of_nat k -> char_at s j <> Some c)
  \/ (lo <= rscan s c lo k < lo + Z.of_nat k /\
      char_at s (rscan s c lo k) = Some c /\
      forall j, rscan s c lo k < j < lo + Z.of_nat k -> char_at s j <> Some c).
Proof.
  induction k as [|k IH].
  - left. split; [reflexivity | intros j Hj; lia].
  - cbn [rscan].
    destruct (char_at s (lo + Z.of_nat k)) as [x|] eqn:Hx.
    + destruct (N.eqb_spec x c) as [->|Hne].
      * right. split; [lia|]. split; [exact Hx|]. intros j Hj. lia.
      * destruct IH as [[Hr Hall]|[Hr [Hc Hall]]].
        -- left. split; [exact Hr|]. intros j Hj.
           destruct (Z.eq_dec j (lo + Z.of_nat k)) as [->|Hd].
           ++ rewrite Hx. congruence.
           ++ apply Hall. lia.
        -- right. split; [lia|]. split; [exact Hc|]. intros j Hj.
           destruct (Z.eq_dec j (lo + Z.of_nat k)) as [->|Hd].
           ++ rewrite Hx. congruence.
           ++ apply Hall. lia.
    + destruct IH as [[Hr Hall]|[Hr [Hc Hall]]].
      * left. split; [exact Hr|]. intros j Hj.
        destruct (Z.eq_dec j (lo + Z.of_nat k)) as [->|Hd].
        -- rewrite Hx. discriminate.
        -- apply Hall. lia.
      * right. split; [lia|]. split; [exact Hc|]. intros j Hj.
        destruct (Z.eq_dec j (lo + Z.of_nat k)) as [->|Hd].
        -- rewrite Hx. discriminate.
        -- apply Hall. lia.
Qed.

Lemma rfind_empty s c lo hi :
  adjust_index (len s) hi <= adjust_index (len s) lo -> rfind s c lo hi = -1.
Proof.
  intros H. unfold rfind.
  replace (Z.to_nat _) with O by lia. reflexivity.
Qed.

Lemma rfind_cases s c lo hi :
  rfind s c lo hi = -1
  \/ (adjust_index (len s) lo <= rfind s c lo hi < adjust_index (len s) hi /\
      last_before s c (rfind s c lo hi) (adjust_index (len s) hi)).
Proof.
  unfold rfind, last_before.
  set (lo' := adjust_index (len s) lo). set (hi' := adjust_index (len s) hi).
  destruct (rscan_spec s c lo' (Z.to_nat (hi' - lo')))
    as [[Hr _]|[Hr [Hc Hall]]].
  - left. exact Hr.
  - right. split; [lia|]. split; [exact Hc|].
    intros j Hj. apply Hall. lia.
Qed.

Lemma rfind_last s c lo hi p :
  adjust_index (len s) lo <= p < adjust_index (len s) hi ->
  last_before s c p (adjust_index (len s) hi) ->
  rfind s c lo hi = p.
Proof.
  intros Hp [Hc Hlast]. unfold rfind.
  set (lo' := adjust_index (len s) lo) in *.
  set (hi' := adjust_index (len s) hi) in *.
  destruct (rscan_spec s c lo' (Z.to_nat (hi' - lo')))
    as [[_ Hall]|[Hr [Hc' Hall]]].
  - exfalso. apply (Hall p); [lia | exact Hc].
  - set (r := rscan s c lo' (Z.to_nat (hi' - lo'))) in *.
    destruct (Z.lt_trichotomy r p) as [Hlt|[Heq|Hgt]].
    + exfalso. apply (Hall p); [lia | exact Hc].
    + exact Heq.
    + exfalso. apply (Hlast r); [lia | exact Hc'].
Qed.

(** ** The chunker: divergence and the order of the chunks *)

Section ChunkerFacts.

Variable self : SimpleDocumentProcessor.
Variable text : pystr.

Let cs := chunk_size self.
Let ov := chunk_overlap self.
Let n := len text.

Lemma chunk_iteration_start st :
  cur_start (chunk_iteration self text st) = next_start self text (cur_start st).
Proof. reflexivity. Qed.

Lemma chunk_loop_unfold fuel st :
  chunk_loop self text fuel st =
  if cur_start st <? len text then
    match fuel with
    | O => None
    | S fuel' =>
        let st' := chunk_iteration self text st in
        if cur_start st' >=? len text then Some (chunks st')
        else chunk_loop self text fuel' st'
    end
  else Some (chunks st).
Proof. destruct fuel; reflexivity. Qed.

Lemma diverges_from_lt s : diverges_from self text s -> s < n.
Proof.
  intros H. specialize (H O 0 []). cbn in H.
  destruct (s <? len text) eqn:E; [apply Z.ltb_lt in E; exact E | discriminate].
Qed.

Lemma diverges_step s : s < n -> diverges_from self text (next_start self text s) -> diverges_from self text s.
Proof.
  intros Hs Hd fuel i l. rewrite chunk_loop_unfold. cbn [cur_start].
  apply Z.ltb_lt in Hs. fold n. rewrite Hs.
  destruct fuel as [|fuel]; [reflexivity|]. cbv zeta.
  rewrite chunk_iteration_start. cbn [cur_start].
  pose proof (diverges_from_lt _ Hd) as Hlt.
  destruct (next_start self text s >=? n) eqn:E.
  - rewrite Z.geb_leb in E. apply Z.leb_le in E. lia.
  - destruct (chunk_iteration self text _) as [s' i' l'] eqn:Hit.
    assert (s' = next_start self text s) as ->.
    { change s' with (cur_start {| cur_start := s'; next_id := i'; chunks := l' |}).
      rewrite <- Hit. apply chunk_iteration_start. }
    apply Hd.
Qed.

Lemma diverges_two_cycle s t :
  s < n -> t < n -> next_start self text s = t -> next_start self text t = s ->
  diverges_from self text s /\ diverges_from self text t.
Proof.
  intros Hs Ht Hst Hts.
  assert (H : forall fuel i l,
    chunk_loop self text fuel {| cur_start := s; next_id := i; chunks := l |} = None /\
    chunk_loop self text fuel {| cur_start := t; next_id := i; chunks := l |} = None).
  { induction fuel as [|fuel IH]; intros i l.
    - cbn. fold n.
      apply Z.ltb_lt in Hs, Ht. rewrite Hs, Ht. split; reflexivity.
    - split.
      + rewrite chunk_loop_unfold. cbn [cur_start]. fold n.
        pose proof Hs as Hs'. apply Z.ltb_lt in Hs'. rewrite Hs'. cbv zeta.
        rewrite chunk_iteration_start. cbn [cur_start]. rewrite Hst.
        destruct (t >=? n) eqn:E.
        { rewrite Z.geb_leb in E. apply Z.leb_le in E. lia. }
        destruct (chunk_iteration self text _) as [s' i' l'] eqn:Hit.
        assert (s' = t) as ->.
        { change s' with (cur_start {| cur_start := s'; next_id := i'; chunks := l' |}).
          rewrite <- Hit. rewrite chunk_iteration_start. exact Hst. }
        apply IH.
      + rewrite chunk_loop_unfold. cbn [cur_start]. fold n.
        pose proof Ht as Ht'. apply Z.ltb_lt in Ht'. rewrite Ht'. cbv zeta.
        rewrite chunk_iteration_start. cbn [cur_start]. rewrite Hts.
        destruct (s >=? n) eqn:E.
        { rewrite Z.geb_leb in E. apply Z.leb_le in E. lia. }
        destruct (chunk_iteration self text _) as [s' i' l'] eqn:Hit.
        assert (s' = s) as ->.
        { change s' with (cur_start {| cur_start := s'; next_id := i'; chunks := l' |}).
          rewrite <- Hit. rewrite chunk_iteration_start. exact Hts. }
        apply IH. }
  split; intros fuel i l; apply H.
Qed.

Lemma diverges_fixpoint s : s < n -> next_start self text s = s -> diverges_from self text s.
Proof.
  intros Hs Hfix. apply (diverges_two_cycle s s); assumption.
Qed.

End ChunkerFacts.

Section ChunkerOrder.

Variable self : SimpleDocumentProcessor.
Variable text : pystr.
Hypothesis Hpar : 0 <= chunk_overlap self < chunk_size self.

Let cs := chunk_size self.
Let ov := chunk_overlap self.
Let n := len text.

Local Abbreviation wend := (window_end self text).
Local Abbreviation next := (next_start self text).
Local Abbreviation doomed := (diverges_from self text).

Lemma window_end_hard_cut s : n <= s + cs -> wend s = s + cs.
Proof.
  intros H. unfold window_end. fold cs n.
  destruct (s + cs <? n) eqn:E; [apply Z.ltb_lt in E; lia | reflexivity].
Qed.

(** A window that starts inside the text ends at the hard cut or at the
    last space strictly inside it. *)
Lemma window_end_cases s :
  0 <= s ->
  wend s = s + cs
  \/ (s + cs < n /\ s < wend s < s + cs /\ last_before text space (wend s) (s + cs)).
Proof.
  intros Hs. unfold window_end. fold cs n.
  destruct (s + cs <? n) eqn:E; [apply Z.ltb_lt in E | left; reflexivity].
  cbv zeta.
  destruct (rfind text space s (s + cs) >? s) eqn:G; [|left; reflexivity].
  rewrite Z.gtb_ltb in G. apply Z.ltb_lt in G.
  right. split; [exact E|].
  destruct (rfind_cases text space s (s + cs)) as [Hm|[Hr Hl]]; [lia|].
  fold n in Hr, Hl.
  rewrite (adjust_index_id n (s + cs)) in Hr, Hl by lia.
  split; [lia | exact Hl].
Qed.

(** A window that contains [p], the last space before [hi], and that ends
    no later than [hi], is cut at [p]. *)
Lemma window_end_snap t p hi :
  0 <= t < p -> p < t + cs -> t + cs <= hi -> hi < n ->
  last_before text space p hi -> wend t = p.
Proof.
  intros Ht Hp Hhi Hn [Hc Hl]. unfold window_end. fold cs n.
  assert (E : (t + cs <? n) = true) by (apply Z.ltb_lt; lia).
  rewrite E. cbv zeta.
  assert (R : rfind text space t (t + cs) = p).
  { apply rfind_last; fold n.
    - rewrite !adjust_index_id by lia. lia.
    - rewrite adjust_index_id by lia. split; [exact Hc|].
      intros j Hj. apply Hl. lia. }
  rewrite R.
  assert (G : (p >? t) = true) by (rewrite Z.gtb_ltb; apply Z.ltb_lt; lia).
  rewrite G. reflexivity.
Qed.

(** Below [-1] the search range is empty, [rfind] answers [-1], and [-1]
    passes the test [last_space > start]. *)
Lemma window_end_negative s :
  s < -1 -> 0 <= s + cs -> cs <= n -> wend s = -1.
Proof.
  intros Hs Hcs Hn. unfold window_end. fold cs n.
  assert (E : (s + cs <? n) = true) by (apply Z.ltb_lt; lia).
  rewrite E. cbv zeta.
  assert (R : rfind text space s (s + cs) = -1).
  { apply rfind_empty. fold n.
    rewrite (adjust_index_id n (s + cs)) by lia.
    rewrite (adjust_index_neg n s) by lia. lia. }
  rewrite R.
  assert (G : (-1 >? s) = true) by (rewrite Z.gtb_ltb; apply Z.ltb_lt; lia).
  rewrite G. reflexivity.
Qed.

(** At [-1] the range is empty too, but [-1 > -1] fails: the hard cut. *)
Lemma window_end_minus_one : cs <= n -> wend (-1) = cs - 1.
Proof.
  intros Hn. unfold window_end. fold cs n.
  replace (-1 + cs) with (cs - 1) by lia.
  assert (E : (cs - 1 <? n) = true) by (apply Z.ltb_lt; lia).
  rewrite E. cbv zeta.
  assert (R : rfind text space (-1) (cs - 1) = -1).
  { apply rfind_empty. fold n.
    rewrite (adjust_index_id n (cs - 1)) by (unfold cs; lia).
    rewrite (adjust_index_neg n (-1)) by (unfold cs in *; lia). lia. }
  rewrite R. reflexivity.
Qed.

Lemma slice_minus_one : cs <= n -> slice text (-1) (cs - 1) = [].
Proof.
  intros Hn. unfold slice. fold n.
  rewrite (adjust_index_id n (cs - 1)) by (unfold cs; lia).
  rewrite (adjust_index_neg n (-1)) by (unfold cs in *; lia).
  replace (Z.to_nat _) with O by lia. reflexivity.
Qed.

Lemma diverges_below_minus_one s :
  1 <= ov -> s < -1 -> 0 <= s + cs -> cs < n -> doomed s.
Proof.
  intros Hov Hs Hcs Hn.
  assert (Hfix : next (-1 - ov) = -1 - ov).
  { unfold next_start. fold ov.
    rewrite window_end_negative; unfold cs, ov in *; lia. }
  apply diverges_step; [fold n; lia|].
  unfold next_start. fold ov. rewrite window_end_negative by lia.
  apply diverges_fixpoint; [fold n; unfold ov in *; lia | exact Hfix].
Qed.

(** One iteration that begins at [s >= 0] moves [start] forward, or enters
    a cycle, or steps to [-1] with the next stop [cs - 1 - ov] beyond [s]. *)
Lemma next_start_progress s :
  0 <= s < n ->
  s < next s
  \/ doomed (next s)
  \/ (next s = -1 /\ cs < n /\ s < cs - 1 - ov).
Proof.
  intros Hs.
  assert (Hnext : next s = wend s - ov) by reflexivity.
  destruct (window_end_cases s) as [He|[Hlt [Hr Hl]]]; [lia | left; unfold cs, ov in *; lia |].
  set (p := wend s) in *.
  rewrite Hnext.
  destruct (Z_lt_le_dec s (p - ov)) as [Hprog|Hback]; [left; exact Hprog|].
  right.
  assert (Hov : 1 <= ov) by lia.
  assert (Hcsn : cs < n) by lia.
  destruct (Z_lt_le_dec (p - ov) (-1)) as [Hneg|Hge].
  - (* below -1 *)
    left. apply diverges_below_minus_one; unfold cs, ov in *; lia.
  - destruct (Z.eq_dec (p - ov) (-1)) as [Hm1|Hnm1].
    + (* at -1: either the stop after it is beyond s, or a two-cycle *)
      destruct (Z_lt_le_dec s (cs - 1 - ov)) as [Hb|Hb].
      * right. auto.
      * left. rewrite Hm1.
        assert (Hn1 : next (-1) = cs - 1 - ov).
        { unfold next_start. fold ov. rewrite window_end_minus_one by lia. reflexivity. }
        assert (Hn2 : next (cs - 1 - ov) = -1).
        { unfold next_start. fold ov.
          rewrite (window_end_snap (cs - 1 - ov) p (s + cs)); try lia.
          exact Hl. }
        apply (diverges_two_cycle self text (-1) (cs - 1 - ov)); fold n; solve [lia | assumption].
    + (* a stop inside the text, not beyond s: a fixed point *)
      left.
      apply diverges_fixpoint; [fold n; lia|].
      unfold next_start. fold ov.
      rewrite (window_end_snap (p - ov) p (s + cs)); try lia.
      exact Hl.
Qed.

(** *** The loop invariant *)

Lemma sorted_snoc (l : list Z) (x : Z) :
  Sorted Z.le l -> Forall (fun y => y <= x) l -> Sorted Z.le (l ++ [x]).
Proof.
  induction l as [|a l IH]; intros Hs Hall; cbn.
  - repeat constructor.
  - inversion Hs as [|? ? Hs' Hhd]; subst.
    inversion Hall as [|? ? Ha Hall']; subst.
    constructor; [apply IH; assumption|].
    destruct l as [|b l]; cbn.
    + constructor. exact Ha.
    + inversion Hhd; subst. constructor. assumption.
Qed.

(** What one iteration appends: nothing, or one chunk that records the
    window [start .. window_end start]. *)
Lemma chunk_iteration_chunks st :
  chunks (chunk_iteration self text st) = chunks st
  \/ exists c,
       chunks (chunk_iteration self text st) = chunks st ++ [c]
       /\ start_pos c = cur_start st
       /\ end_pos c = wend (cur_start st).
Proof.
  unfold chunk_iteration.
  destruct (truthy (strip (slice text (cur_start st) (wend (cur_start st))))).
  - right. eexists. cbn. split; [reflexivity|]. split; reflexivity.
  - left. reflexivity.
Qed.

Lemma chunk_iteration_minus_one st :
  cur_start st = -1 -> cs <= n ->
  chunks (chunk_iteration self text st) = chunks st.
Proof.
  intros Hs Hn. unfold chunk_iteration. rewrite Hs.
  rewrite window_end_minus_one by exact Hn.
  rewrite slice_minus_one by exact Hn. reflexivity.
Qed.

Lemma chunker_inv_step st :
  cur_start st < n -> ordered_so_far self text st ->
  chunker_inv self text (chunk_iteration self text st).
Proof.
  intros Hlt [Hsorted [[Hs Hall]|[Hs [Hn Hall]]]].
  - (* start inside the text *)
    assert (Hnew : Sorted Z.le (map start_pos (chunks (chunk_iteration self text st)))
                   /\ Forall (fun c => start_pos c <= cur_start st)
                        (chunks (chunk_iteration self text st))).
    { destruct (chunk_iteration_chunks st) as [->|[c [-> [Hc _]]]].
      - split; assumption.
      - split.
        + rewrite map_app. cbn. rewrite Hc. apply sorted_snoc; [exact Hsorted|].
          rewrite Forall_map. exact Hall.
        + apply Forall_app. split; [exact Hall|].
          constructor; [lia | constructor]. }
    destruct Hnew as [Hsorted' Hall'].
    unfold chunker_inv, ordered_so_far. rewrite chunk_iteration_start.
    destruct (next_start_progress (cur_start st)) as [Hp|[Hd|[Hm [Hn Hb]]]];
      [lia | | left; exact Hd | ].
    + right. split; [exact Hsorted'|]. left. split; [lia|].
      eapply Forall_impl; [|exact Hall']. cbv beta. intros c Hc. lia.
    + right. split; [exact Hsorted'|]. right. split; [exact Hm|].
      split; [exact Hn|].
      eapply Forall_impl; [|exact Hall']. cbv beta. intros c Hc. lia.
  - (* start = -1: nothing is emitted, the next stop is cs - 1 - ov *)
    unfold chunker_inv, ordered_so_far. rewrite chunk_iteration_start.
    rewrite chunk_iteration_minus_one by lia.
    right. split; [exact Hsorted|]. left.
    rewrite Hs. unfold next_start. rewrite window_end_minus_one by lia.
    fold ov. split; [unfold cs, ov in *; lia|].
    eapply Forall_impl; [|exact Hall]. cbv beta. intros c Hc. lia.
Qed.

Lemma chunk_loop_ordered fuel :
  forall st r,
    chunker_inv self text st -> chunk_loop self text fuel st = Some r ->
    Sorted Z.le (map start_pos r).
Proof.
  induction fuel as [|fuel IH]; intros st r Hinv Hrun.
  - destruct Hinv as [Hd|[Hsorted _]].
    + destruct st as [s i l]. cbn in Hd. rewrite (Hd O i l) in Hrun. discriminate.
    + cbn in Hrun. destruct (cur_start st <? len text); [discriminate|].
      injection Hrun as <-. exact Hsorted.
  - destruct Hinv as [Hd|Hord].
    + destruct st as [s i l]. cbn in Hd. rewrite (Hd (S fuel) i l) in Hrun. discriminate.
    + rewrite chunk_loop_unfold in Hrun.
      destruct (cur_start st <? len text) eqn:E.
      * apply Z.ltb_lt in E. cbv zeta in Hrun.
        pose proof (chunker_inv_step st E Hord) as Hinv'.
        destruct (cur_start (chunk_iteration self text st) >=? len text) eqn:G.
        -- injection Hrun as <-.
           destruct Hinv' as [Hd|[Hsorted _]]; [|exact Hsorted].
           apply diverges_from_lt in Hd.
           rewrite Z.geb_leb in G. apply Z.leb_le in G. lia.
        -- apply (IH _ _ Hinv' Hrun).
      * injection Hrun as <-. destruct Hord as [Hsorted _]. exact Hsorted.
Qed.

(** *** The width of the windows *)

Lemma window_end_bounds s :
  -1 - ov <= s -> -1 <= wend s /\ wend s - s <= cs.
Proof.
  intros Hs. unfold window_end. fold cs n.
  destruct (s + cs <? n) eqn:E; [apply Z.ltb_lt in E | unfold cs, ov in *; lia].
  cbv zeta.
  destruct (rfind text space s (s + cs) >? s) eqn:G; [|unfold cs, ov in *; lia].
  rewrite Z.gtb_ltb in G. apply Z.ltb_lt in G.
  destruct (rfind_cases text space s (s + cs)) as [Hm|[Hr _]].
  - rewrite Hm. unfold cs, ov in *; lia.
  - fold n in Hr.
    rewrite (adjust_index_id n (s + cs)) in Hr by (unfold cs, ov in *; lia).
    pose proof (adjust_index_range n s (len_nonneg text)). lia.
Qed.

Lemma chunk_loop_windows fuel :
  forall st r,
    -1 - ov <= cur_start st -> Forall (window_ok self) (chunks st) ->
    chunk_loop self text fuel st = Some r -> Forall (window_ok self) r.
Proof.
  induction fuel as [|fuel IH]; intros st r Hs Hall Hrun.
  - cbn in Hrun. destruct (cur_start st <? len text); [discriminate|].
    injection Hrun as <-. exact Hall.
  - rewrite chunk_loop_unfold in Hrun.
    destruct (cur_start st <? len text); [|injection Hrun as <-; exact Hall].
    cbv zeta in Hrun.
    destruct (window_end_bounds (cur_start st) Hs) as [Hlo Hw].
    assert (Hall' : Forall (window_ok self) (chunks (chunk_iteration self text st))).
    { destruct (chunk_iteration_chunks st) as [->|[c [-> [Hc He]]]];
        [exact Hall|].
      apply Forall_app. split; [exact Hall|].
      constructor; [|constructor]. unfold window_ok. rewrite Hc, He. exact Hw. }
    destruct (cur_start (chunk_iteration self text st) >=? len text).
    + injection Hrun as <-. exact Hall'.
    + apply (IH _ _) in Hrun; [exact Hrun | | exact Hall'].
      rewrite chunk_iteration_start. unfold next_start. fold ov. lia.
Qed.

End ChunkerOrder.

(** The result does not depend on the fuel, once there is enough of it. *)
Lemma chunk_loop_more_fuel self text fuel :
  forall st r fuel',
    chunk_loop self text fuel st = Some r -> (fuel <= fuel')%nat ->
    chunk_loop self text fuel' st = Some r.
Proof.
  induction fuel as [|fuel IH]; intros st r fuel' Hrun Hle.
  - cbn in Hrun. rewrite chunk_loop_unfold.
    destruct (cur_start st <? len text); [discriminate | exact Hrun].
  - rewrite chunk_loop_unfold in Hrun. rewrite chunk_loop_unfold.
    destruct (cur_start st <? len text); [|exact Hrun].
    destruct fuel' as [|fuel']; [lia|].
    cbv zeta in *.
    destruct (cur_start (chunk_iteration self text st) >=? len text);
      [exact Hrun|].
    apply (IH _ _ fuel' Hrun). lia.
Qed.

Lemma chunk_loop_terminates_without_overlap self text :
  chunk_overlap self = 0 -> 0 < chunk_size self ->
  forall fuel st,
    0 <= cur_start st -> len text - cur_start st <= Z.of_nat fuel ->
    exists r, chunk_loop self text fuel st = Some r.
Proof.
  intros Hov Hcs.
  assert (Hpar : 0 <= chunk_overlap self < chunk_size self) by lia.
  induction fuel as [|fuel IH]; intros st Hs Hfuel; rewrite chunk_loop_unfold.
  - destruct (cur_start st <? len text) eqn:E;
      [apply Z.ltb_lt in E; lia | eexists; reflexivity].
  - destruct (cur_start st <? len text) eqn:E; [|eexists; reflexivity].
    apply Z.ltb_lt in E. cbv zeta.
    destruct (cur_start (chunk_iteration self text st) >=? len text) eqn:G;
      [eexists; reflexivity|].
    assert (Hnext : cur_start st < cur_start (chunk_iteration self text st)).
    { rewrite chunk_iteration_start. unfold next_start. rewrite Hov.
      destruct (window_end_cases self text Hpar (cur_start st) Hs)
        as [->|[_ [Hw _]]]; lia. }
    apply IH; lia.
Qed.

(** Without overlap every iteration moves [start] forward, and
    [create_chunks] returns after at most [len(text)] iterations. *)
Theorem create_chunks_terminates_without_overlap self text :
  chunk_overlap self = 0 -> 0 < chunk_size self ->
  exists r, create_chunks self text (List.length text) = Some r.
Proof.
  intros Hov Hcs. unfold create_chunks.
  apply chunk_loop_terminates_without_overlap; try assumption.
  - cbn [cur_start]. lia.
  - cbn [cur_start]. unfold len. lia.
Qed.

Lemma create_chunks_terminates_without_overlap_witness :
  exists r, create_chunks (mkProcessor 4 0) (lit "ab cdefgh") 9 = Some r.
Proof.
  exact (create_chunks_terminates_without_overlap (mkProcessor 4 0)
           (lit "ab cdefgh") eq_refl eq_refl).
Defined.

(** *** Claims on the chunker *)

(** C1 (the code does not do what the claim says). The claim: with
    [chunk_size > overlap >= 0], [create_chunks] terminates on every text,
    a guard stopping the scan when an iteration makes no forward progress.
    The loop has no such guard. With [chunk_size = 4], [overlap = 2] and
    the text ["ab cdefgh"], the first window is cut at the space at offset
    2, the chunk ["ab"] is appended, and [start] becomes [2 - 2 = 0] again:
    no amount of fuel lets the loop return. *)
Theorem create_chunks_no_progress_diverges :
  0 <= chunk_overlap (mkProcessor 4 2) < chunk_size (mkProcessor 4 2)
  /\ next_start (mkProcessor 4 2) (lit "ab cdefgh") 0 = 0
  /\ forall fuel, create_chunks (mkProcessor 4 2) (lit "ab cdefgh") fuel = None.
Proof.
  split; [cbn; lia|]. split; [vm_compute; reflexivity|].
  intros fuel. unfold create_chunks.
  apply (diverges_fixpoint (mkProcessor 4 2) (lit "ab cdefgh") 0);
    vm_compute; reflexivity.
Qed.

(** The same happens with the parameters of [SimpleDocumentProcessor()]
    (1000 and 100): a word of 100 characters, a space, then 1000
    characters without a space. *)
Lemma create_chunks_default_diverges :
  forall fuel,
    create_chunks default_processor
      (repeat 97%N 100 ++ [space] ++ repeat 98%N 1000) fuel = None.
Proof.
  intros fuel. unfold create_chunks.
  apply diverges_fixpoint; vm_compute; reflexivity.
Qed.

(** C2 (the code does not do what the claim says). The claim speaks of
    the sequence [create_chunks] returns for every non-empty text and all
    [chunk_size > overlap >= 0]. With the parameters of
    [SimpleDocumentProcessor()] (1000 and 100) and the non-empty text made
    of 100 letters, a space and 1000 letters, no sequence is returned: the
    first window is cut at the space at offset 100 and [start] is
    [100 - 100 = 0] again. This is the defect of C1. *)
Theorem create_chunks_returns_no_sequence :
  0 <= chunk_overlap default_processor < chunk_size default_processor
  /\ repeat 97%N 100 ++ [space] ++ repeat 98%N 1000 <> []
  /\ next_start default_processor
       (repeat 97%N 100 ++ [space] ++ repeat 98%N 1000) 0 = 0
  /\ forall fuel,
       create_chunks default_processor
         (repeat 97%N 100 ++ [space] ++ repeat 98%N 1000) fuel = None.
Proof.
  split; [cbn; lia|]. split; [discriminate|].
  split; [vm_compute; reflexivity|].
  intros fuel. unfold create_chunks.
  apply diverges_fixpoint; vm_compute; reflexivity.
Qed.

(** Whenever [create_chunks] returns, with [chunk_size > overlap >= 0]:
    the list it returns has [start_pos] non-decreasing from the first
    chunk to the last, and the window of every chunk,
    [end_pos - start_pos], is at most [chunk_size]. A run in which [start]
    moves backwards never returns (see [next_start_progress]), so the
    chunks of a returned list are in order. *)
Theorem create_chunks_ordered_and_bounded
    (self : SimpleDocumentProcessor) (text : pystr) (fuel : nat)
    (r : list Chunk) :
  0 <= chunk_overlap self < chunk_size self ->
  create_chunks self text fuel = Some r ->
  Sorted Z.le (map start_pos r)
  /\ Forall (fun c => end_pos c - start_pos c <= chunk_size self) r.
Proof.
  intros Hpar Hrun. unfold create_chunks in Hrun. split.
  - refine (chunk_loop_ordered self text Hpar fuel _ r _ Hrun).
    right. split; [constructor|]. left. split; [cbn [cur_start]; lia | constructor].
  - refine (chunk_loop_windows self text Hpar fuel _ r _ _ Hrun);
      [cbn [cur_start]; lia | constructor].
Qed.

(** The text of the specification, with [chunk_size = 50] and
    [overlap = 10]: three chunks, at offsets 0, 34 and 72. *)
Lemma create_chunks_ordered_and_bounded_witness :
  exists r,
    create_chunks (mkProcessor 50 10) spec_text 3 = Some r
    /\ map start_pos r = [0; 34; 72]
    /\ Sorted Z.le (map start_pos r)
    /\ Forall (fun c => end_pos c - start_pos c <= 50) r.
Proof.
  eexists. split; [vm_compute; reflexivity|].
  split; [reflexivity|].
  apply (create_chunks_ordered_and_bounded (mkProcessor 50 10) spec_text 3);
    [cbn; lia | vm_compute; reflexivity].
Defined.

(** ** The completion client: rotation and retries *)

Lemma init_key_inv keys mdl g : init keys mdl = Ok g -> key_inv g.
Proof.
  unfold init. destruct keys as [|k keys]; [discriminate|].
  intros H. injection H as <-. unfold key_inv. cbn. lia.
Qed.

Lemma get_next_api_key_rotates g :
  key_inv g -> get_next_api_key g = Ok (current_key g, rotate g).
Proof.
  unfold key_inv, get_next_api_key, list_index, py_mod, current_key, rotate.
  intros H.
  destruct (current_key_index g <? 0) eqn:E; [apply Z.ltb_lt in E; lia|].
  rewrite E.
  destruct (nth_error (api_keys g) (Z.to_nat (current_key_index g))) as [k|] eqn:Hk.
  - cbn [bind].
    destruct (Z.of_nat (List.length (api_keys g)) =? 0) eqn:F;
      [apply Z.eqb_eq in F; lia|].
    cbn [bind]. rewrite (nth_error_nth _ _ _ Hk). reflexivity.
  - apply nth_error_None in Hk. lia.
Qed.

Lemma rotate_key_inv g : key_inv g -> key_inv (rotate g).
Proof.
  unfold key_inv, rotate. cbn. intros H.
  apply Z.mod_pos_bound. lia.
Qed.

Lemma rotate_fields g :
  api_keys (rotate g) = api_keys g /\ max_retries (rotate g) = max_retries g.
Proof. split; reflexivity. Qed.

(** One attempt rotates the cursor once, whatever the request brings back. *)
Lemma one_attempt_state outcome prompt a g :
  key_inv g -> snd (fst (one_attempt outcome prompt a g)) = rotate g.
Proof.
  intros H. unfold one_attempt. rewrite (get_next_api_key_rotates g H).
  destruct outcome as [status content|e]; [|reflexivity].
  destruct (status =? 200).
  - destruct content; reflexivity.
  - destruct (backoff_status status); reflexivity.
Qed.

Lemma retry_loop_inv http prompt attempts :
  forall g, key_inv g ->
    api_keys (snd (fst (retry_loop http prompt attempts g))) = api_keys g
    /\ key_inv (snd (fst (retry_loop http prompt attempts g))).
Proof.
  induction attempts as [|a rest IH]; intros g H; cbn [retry_loop].
  - split; [reflexivity | exact H].
  - pose proof (one_attempt_state (http a) prompt (Z.of_nat a) g H) as Hst.
    destruct (one_attempt (http a) prompt (Z.of_nat a) g) as [[r g1] tr].
    cbn in Hst. subst g1.
    destruct r as [ans|].
    + cbn. split; [reflexivity | apply rotate_key_inv; exact H].
    + destruct (IH (rotate g) (rotate_key_inv g H)) as [Hk Hi].
      destruct (retry_loop http prompt rest (rotate g)) as [[r2 g2] tr2].
      cbn in *. split; [exact Hk | exact Hi].
Qed.

(** C9. The cursor invariant [0 <= current_key_index < len(api_keys)]
    holds after a construction that succeeds (the pool is then not empty),
    [get_next_api_key] keeps it and, under it, never indexes out of bounds
    (it returns the credential under the cursor), and every call of
    [generate_answer] keeps it, for all responses. *)
Theorem rotation_cursor_in_bounds :
  (forall keys mdl g, init keys mdl = Ok g -> keys <> [] /\ key_inv g)
  /\ (forall g, key_inv g ->
        exists key g',
          get_next_api_key g = Ok (key, g')
          /\ nth_error (api_keys g) (Z.to_nat (current_key_index g)) = Some key
          /\ api_keys g' = api_keys g
          /\ current_key_index g' =
             (current_key_index g + 1) mod Z.of_nat (List.length (api_keys g))
          /\ key_inv g')
  /\ (forall http g question context,
        key_inv g ->
        api_keys (snd (fst (generate_answer http g question context))) = api_keys g
        /\ key_inv (snd (fst (generate_answer http g question context)))).
Proof.
  split; [|split].
  - intros keys mdl g H. split; [|exact (init_key_inv keys mdl g H)].
    destruct keys; [discriminate | discriminate].
  - intros g H. exists (current_key g), (rotate g).
    split; [apply get_next_api_key_rotates; exact H|].
    split.
    + unfold current_key. apply nth_error_nth'. unfold key_inv in H. lia.
    + split; [reflexivity|]. split; [reflexivity|]. apply rotate_key_inv. exact H.
  - intros http g question context H. unfold generate_answer.
    apply retry_loop_inv. exact H.
Qed.

Lemma rotation_cursor_in_bounds_witness :
  init two_keys default_model = Ok two_key_client
  /\ key_inv two_key_client
  /\ get_next_api_key two_key_client = Ok (lit "key-A", rotate two_key_client)
  /\ key_inv (snd (fst (generate_answer
                         (fun _ => PostRaises (mkExn RequestException []))
                         two_key_client [] []))).
Proof.
  destruct rotation_cursor_in_bounds as [Hinit [_ Hgen]].
  split; [reflexivity|].
  assert (Hinv : key_inv two_key_client)
    by exact (proj2 (Hinit two_keys default_model two_key_client eq_refl)).
  split; [exact Hinv|].
  split; [reflexivity|].
  exact (proj2 (Hgen _ two_key_client [] [] Hinv)).
Defined.

(** *** Non-success statuses *)

Lemma backoff_status_iff status :
  backoff_status status = true
  <-> status = 429 \/ status = 500 \/ status = 502 \/ status = 503.
Proof.
  unfold backoff_status. cbn [existsb].
  rewrite !orb_true_iff, !Z.eqb_eq. intuition discriminate.
Qed.

Lemma one_attempt_non_success status content prompt a g :
  key_inv g -> status <> 200 ->
  one_attempt (Response status content) prompt a g =
  (NextAttempt, rotate g,
   Post (current_key g) prompt ::
   (if backoff_status status then [Sleep (2 ^ a)] else [])).
Proof.
  intros H Hs. unfold one_attempt. rewrite (get_next_api_key_rotates g H).
  destruct (status =? 200) eqn:E; [apply Z.eqb_eq in E; contradiction|].
  destruct (backoff_status status); reflexivity.
Qed.

(** C3, as the code has it. For a response whose status is not 200, the
    attempt numbered [attempt] (from 0) sends one request with the
    credential under the cursor, rotates the cursor to the next
    credential, and then sleeps [2 ^ attempt] seconds when the status is
    one of 429, 500, 502, 503, and does not sleep for any other status
    (the other 5xx codes included). *)
Theorem non_success_status_backoff
    (g : AIAnswerGenerator) (status : Z) (content : result pystr)
    (prompt : pystr) (attempt : nat) :
  key_inv g -> status <> 200 ->
  one_attempt (Response status content) prompt (Z.of_nat attempt) g =
    (NextAttempt, rotate g,
     Post (current_key g) prompt ::
     (if backoff_status status then [Sleep (2 ^ Z.of_nat attempt)] else []))
  /\ (backoff_status status = true
      <-> status = 429 \/ status = 500 \/ status = 502 \/ status = 503)
  /\ current_key_index (rotate g) =
     (current_key_index g + 1) mod Z.of_nat (List.length (api_keys g)).
Proof.
  intros H Hs. split; [|split].
  - apply one_attempt_non_success; assumption.
  - apply backoff_status_iff.
  - reflexivity.
Qed.

Lemma non_success_status_backoff_witness :
  one_attempt (Response 503 (Raise (mkExn OtherException []))) []
    (Z.of_nat 2) two_key_client
  = (NextAttempt, rotate two_key_client, [Post (lit "key-A") []; Sleep 4])
  /\ one_attempt (Response 404 (Raise (mkExn OtherException []))) []
       (Z.of_nat 2) two_key_client
     = (NextAttempt, rotate two_key_client, [Post (lit "key-A") []]).
Proof.
  assert (Hinv : key_inv two_key_client) by (unfold key_inv; cbn; lia).
  split.
  - exact (proj1 (non_success_status_backoff two_key_client 503 _ [] 2 Hinv
                    ltac:(discriminate))).
  - exact (proj1 (non_success_status_backoff two_key_client 404 _ [] 2 Hinv
                    ltac:(discriminate))).
Defined.

(** C3 as stated fails: 504 is a 5xx server error, and a call whose every
    attempt is answered 504 sends its three requests without one sleep. *)
Lemma status_504_no_backoff :
  500 <= 504 <= 599
  /\ backoff_status 504 = false
  /\ sleeps (snd (generate_answer
                    (fun _ => Response 504 (Raise (mkExn OtherException [])))
                    two_key_client [] [])) = []
  /\ posted_keys (snd (generate_answer
                    (fun _ => Response 504 (Raise (mkExn OtherException [])))
                    two_key_client [] []))
     = [lit "key-A"; lit "key-B"; lit "key-A"].
Proof.
  split; [lia|]. split; [reflexivity|]. split; vm_compute; reflexivity.
Qed.

(** *** Exhaustion *)

Lemma posted_keys_app t1 t2 :
  posted_keys (t1 ++ t2) = posted_keys t1 ++ posted_keys t2.
Proof. unfold posted_keys. apply flat_map_app. Qed.

Lemma sleeps_app t1 t2 : sleeps (t1 ++ t2) = sleeps t1 ++ sleeps t2.
Proof. unfold sleeps. apply flat_map_app. Qed.

Lemma posted_keys_post k p tr : posted_keys (Post k p :: tr) = k :: posted_keys tr.
Proof. reflexivity. Qed.

Lemma posted_keys_sleep d tr : posted_keys (Sleep d :: tr) = posted_keys tr.
Proof. reflexivity. Qed.

Lemma sleeps_post k p tr : sleeps (Post k p :: tr) = sleeps tr.
Proof. reflexivity. Qed.

Lemma sleeps_sleep d tr : sleeps (Sleep d :: tr) = d :: sleeps tr.
Proof. reflexivity. Qed.

Lemma retry_loop_all_503 http prompt attempts :
  (forall a, exists content, http a = Response 503 content) ->
  forall g, key_inv g ->
    fst (fst (retry_loop http prompt attempts g)) = None
    /\ List.length (posted_keys (snd (retry_loop http prompt attempts g)))
       = List.length attempts
    /\ sleeps (snd (retry_loop http prompt attempts g))
       = map (fun a => 2 ^ Z.of_nat a) attempts.
Proof.
  intros Hhttp.
  induction attempts as [|a rest IH]; intros g H; cbn [retry_loop].
  - repeat split.
  - destruct (Hhttp a) as [content ->].
    rewrite one_attempt_non_success by (exact H || discriminate).
    destruct (IH (rotate g) (rotate_key_inv g H)) as [Hr [Hp Hs]].
    destruct (retry_loop http prompt rest (rotate g)) as [[r2 g2] tr2].
    cbn [fst snd] in *. change (backoff_status 503) with true. cbn [app].
    split; [exact Hr|]. split.
    + rewrite posted_keys_post, posted_keys_sleep. cbn [List.length].
      rewrite Hp. reflexivity.
    + rewrite sleeps_post, sleeps_sleep, Hs. reflexivity.
Qed.

(** C4. If every attempt of a call is answered with status 503, the call
    makes exactly [max_retries] attempts, sleeps [2 ^ 0], [2 ^ 1], ...,
    [2 ^ (max_retries - 1)] seconds, one sleep after each attempt, and
    returns [None]; with the default [max_retries = 3], three attempts and
    the sleeps 1, 2, 4. The model returns a value for every input: the
    handlers of the loop catch every exception. *)
Theorem generate_answer_all_503
    (http : nat -> http_outcome) (g : AIAnswerGenerator)
    (question context : pystr) :
  key_inv g ->
  (forall a, exists content, http a = Response 503 content) ->
  fst (fst (generate_answer http g question context)) = None
  /\ List.length (posted_keys (snd (generate_answer http g question context)))
     = Z.to_nat (max_retries g)
  /\ sleeps (snd (generate_answer http g question context))
     = map (fun a => 2 ^ Z.of_nat a) (seq 0 (Z.to_nat (max_retries g)))
  /\ (max_retries g = 3 ->
      List.length (posted_keys (snd (generate_answer http g question context))) = 3%nat
      /\ sleeps (snd (generate_answer http g question context)) = [1; 2; 4]).
Proof.
  intros H Hhttp. unfold generate_answer.
  destruct (retry_loop_all_503 http (build_prompt question context)
              (seq 0 (Z.to_nat (max_retries g))) Hhttp g H) as [Hr [Hp Hs]].
  rewrite length_seq in Hp.
  split; [exact Hr|]. split; [exact Hp|]. split; [exact Hs|].
  intros H3. rewrite Hp, Hs, H3. split; reflexivity.
Qed.

Lemma generate_answer_all_503_witness :
  fst (fst (generate_answer
              (fun _ => Response 503 (Ok (lit "Service Unavailable")))
              two_key_client (lit "q") (lit "c"))) = None
  /\ sleeps (snd (generate_answer
              (fun _ => Response 503 (Ok (lit "Service Unavailable")))
              two_key_client (lit "q") (lit "c"))) = [1; 2; 4].
Proof.
  assert (Hinv : key_inv two_key_client) by (unfold key_inv; cbn; lia).
  destruct (generate_answer_all_503
              (fun _ => Response 503 (Ok (lit "Service Unavailable")))
              two_key_client (lit "q") (lit "c") Hinv
              (fun _ => ex_intro _ _ eq_refl)) as [Hr [_ [_ H3]]].
  split; [exact Hr | exact (proj2 (H3 eq_refl))].
Defined.

(** *** Round-robin over successful calls *)

(** A call whose first request is answered 200 with a readable body
    returns after that one request. *)
Lemma generate_answer_first_success http g question context a :
  key_inv g -> 1 <= max_retries g ->
  http O = Response 200 (Ok a) ->
  generate_answer http g question context =
  (Some (strip a), rotate g,
   [Post (current_key g) (build_prompt question context)]).
Proof.
  intros H Hm Hhttp. unfold generate_answer.
  destruct (Z.to_nat (max_retries g)) as [|m] eqn:E; [lia|].
  cbn [seq retry_loop]. rewrite Hhttp. unfold one_attempt.
  rewrite (get_next_api_key_rotates g H). reflexivity.
Qed.

Lemma map_nth_seq_all (l : list pystr) :
  map (fun i => nth i l []) (seq 0 (List.length l)) = l.
Proof.
  induction l as [|x l IH]; [reflexivity|].
  cbn [List.length seq map nth]. f_equal.
  rewrite <- seq_shift, map_map. exact IH.
Qed.

Lemma concat_map_singleton {A B : Type} (f : A -> B) (l : list A) :
  List.concat (map (fun i => [f i]) l) = map f l.
Proof. induction l as [|x l IH]; cbn; [reflexivity | f_equal; exact IH]. Qed.

Lemma generate_answers_round_robin https keys :
  keys <> [] ->
  forall qs j k g,
    api_keys g = keys -> 1 <= max_retries g ->
    current_key_index g = Z.of_nat k mod Z.of_nat (List.length keys) ->
    (forall i, (i < List.length qs)%nat ->
               exists a, https (j + i)%nat O = Response 200 (Ok a)) ->
    map (fun x => posted_keys (snd x)) (fst (generate_answers https j qs g))
      = map (fun i => [nth (i mod List.length keys) keys []])
          (seq k (List.length qs))
    /\ Forall (fun x => (exists a, fst x = Some a) /\ sleeps (snd x) = [])
         (fst (generate_answers https j qs g))
    /\ api_keys (snd (generate_answers https j qs g)) = keys
    /\ current_key_index (snd (generate_answers https j qs g))
       = Z.of_nat (k + List.length qs) mod Z.of_nat (List.length keys).
Proof.
  intros Hne.
  assert (HN : 0 < Z.of_nat (List.length keys))
    by (destruct keys; [contradiction | cbn; lia]).
  induction qs as [|q rest IH]; intros j k g Hk Hm Hidx Hhttp.
  - cbn. rewrite Nat.add_0_r. repeat split; [constructor | exact Hk | exact Hidx].
  - assert (Hinv : key_inv g).
    { unfold key_inv. rewrite Hk, Hidx. apply Z.mod_pos_bound. exact HN. }
    destruct (Hhttp O ltac:(cbn; lia)) as [a Ha]. rewrite Nat.add_0_r in Ha.
    cbn [generate_answers].
    rewrite (generate_answer_first_success (https j) g (fst q) (snd q) a Hinv Hm Ha).
    assert (Hidx' : current_key_index (rotate g)
                    = Z.of_nat (S k) mod Z.of_nat (List.length keys)).
    { unfold rotate. cbn. rewrite Hk, Hidx, Zplus_mod_idemp_l.
      f_equal. lia. }
    destruct (IH (S j) (S k) (rotate g) Hk Hm Hidx') as [Hp [Hall [Hk' Hi']]].
    { intros i Hi. destruct (Hhttp (S i) ltac:(cbn; lia)) as [b Hb].
      exists b. rewrite <- Hb. f_equal. lia. }
    destruct (generate_answers https (S j) rest (rotate g)) as [rs g'].
    cbn [fst snd map List.length seq] in *.
    split; [|split; [|split]].
    + f_equal; [|exact Hp].
      rewrite posted_keys_post. cbn [posted_keys flat_map]. f_equal.
      unfold current_key. rewrite Hk, Hidx, <- Nat2Z.inj_mod, Nat2Z.id.
      reflexivity.
    + constructor; [|exact Hall]. cbn. split; [eexists; reflexivity | reflexivity].
    + exact Hk'.
    + rewrite Hi'. f_equal. lia.
Qed.

(** C5. On a fresh client with a pool of [N >= 1] credentials,
    consecutive calls of [generate_answer] that each succeed at their
    first request (status 200, readable body) use one credential each:
    call number [i], counted from 0, sends its only request with
    [api_keys[i mod N]] (the [i]-th call counted from 1 with
    [api_keys[(i-1) mod N]]), the cursor advances by one modulo [N] per
    call, and [N] such calls use each credential once, in pool order. *)
Theorem successful_calls_round_robin
    (keys : list pystr) (mdl : pystr) (g : AIAnswerGenerator)
    (https : nat -> nat -> http_outcome) (qs : list (pystr * pystr)) :
  init keys mdl = Ok g ->
  (forall i, (i < List.length qs)%nat ->
             exists a, https i O = Response 200 (Ok a)) ->
  map (fun x => posted_keys (snd x)) (fst (generate_answers https 0 qs g))
    = map (fun i => [nth (i mod List.length keys) keys []])
        (seq 0 (List.length qs))
  /\ Forall (fun x => (exists a, fst x = Some a) /\ sleeps (snd x) = [])
       (fst (generate_answers https 0 qs g))
  /\ current_key_index (snd (generate_answers https 0 qs g))
     = Z.of_nat (List.length qs) mod Z.of_nat (List.length keys)
  /\ (List.length qs = List.length keys ->
      List.concat (map (fun x => posted_keys (snd x))
                (fst (generate_answers https 0 qs g))) = keys).
Proof.
  intros Hinit Hhttp.
  assert (Hne : keys <> []) by (destruct keys; [discriminate | discriminate]).
  assert (Hg : api_keys g = keys /\ max_retries g = 3 /\ current_key_index g = 0).
  { unfold init in Hinit. destruct keys; [discriminate|].
    injection Hinit as <-. repeat split. }
  destruct Hg as [Hk [Hm Hi]].
  destruct (generate_answers_round_robin https keys Hne qs O O g Hk
              ltac:(lia) ltac:(rewrite Hi; reflexivity) Hhttp)
    as [Hp [Hall [_ Hc]]].
  split; [exact Hp|]. split; [exact Hall|]. split; [exact Hc|].
  intros Hlen. rewrite Hp, Hlen, concat_map_singleton.
  transitivity (map (fun i => nth i keys []) (seq 0 (List.length keys)));
    [|apply map_nth_seq_all].
  apply map_ext_in. intros i Hin. apply in_seq in Hin.
  rewrite Nat.mod_small by lia. reflexivity.
Qed.

Lemma successful_calls_round_robin_witness :
  map (fun x => posted_keys (snd x))
    (fst (generate_answers (fun _ _ => Response 200 (Ok (lit " yes ")))
            0 [(lit "q1", lit "c1"); (lit "q2", lit "c2"); (lit "q3", lit "c3")]
            two_key_client))
  = [[lit "key-A"]; [lit "key-B"]; [lit "key-A"]].
Proof.
  exact (proj1 (successful_calls_round_robin two_keys default_model
                  two_key_client (fun _ _ => Response 200 (Ok (lit " yes ")))
                  [(lit "q1", lit "c1"); (lit "q2", lit "c2"); (lit "q3", lit "c3")]
                  eq_refl (fun _ _ => ex_intro _ _ eq_refl))).
Defined.

(** C5 as stated fails for a successful call that needed a retry: the
    credential is taken inside the retry loop, once per attempt. On a
    fresh client with the pool [key-A; key-B], a first call answered 503
    and then 200 and a second call answered 200 both succeed; the first
    one uses both credentials and leaves the cursor at 0, so that the
    second one uses [key-A], not [api_keys[1]]. *)
Lemma retried_call_consumes_two_keys :
  init two_keys default_model = Ok two_key_client
  /\ map fst (fst (generate_answers retry_then_ok 0
                     [(lit "q1", lit "c1"); (lit "q2", lit "c2")]
                     two_key_client))
     = [Some (lit "yes"); Some (lit "yes")]
  /\ map (fun x => posted_keys (snd x))
       (fst (generate_answers retry_then_ok 0
               [(lit "q1", lit "c1"); (lit "q2", lit "c2")] two_key_client))
     = [[lit "key-A"; lit "key-B"]; [lit "key-A"]]
  /\ current_key_index
       (snd (generate_answers retry_then_ok 0 [(lit "q1", lit "c1")]
               two_key_client)) = 0
  /\ ~ (map (fun x => posted_keys (snd x))
         (fst (generate_answers retry_then_ok 0
                 [(lit "q1", lit "c1"); (lit "q2", lit "c2")] two_key_client))
       = map (fun i => [nth (i mod 2) two_keys []]) (seq 0 2)).
Proof.
  split; [reflexivity|]. split; [vm_compute; reflexivity|].
  split; [vm_compute; reflexivity|]. split; [vm_compute; reflexivity|].
  intros H. vm_compute in H. discriminate H.
Qed.

(** ** The lexical retriever *)

(** *** The sort *)

Lemma Qltb_true a b : Qltb a b = true <-> (a < b)%Q.
Proof.
  unfold Qltb. rewrite negb_true_iff. split.
  - intros H. apply Qnot_le_lt. intros Hle.
    apply Qle_bool_iff in Hle. congruence.
  - intros H. destruct (Qle_bool b a) eqn:E; [|reflexivity].
    apply Qle_bool_iff in E. exfalso. exact (Qlt_not_le _ _ H E).
Qed.

Lemma Qltb_false a b : Qltb a b = false <-> (b <= a)%Q.
Proof.
  unfold Qltb. rewrite negb_false_iff. apply Qle_bool_iff.
Qed.

Lemma insert_desc_perm x l : Permutation (insert_desc x l) (x :: l).
Proof.
  induction l as [|y l IH]; cbn; [apply Permutation_refl|].
  destruct (Qltb (Scored.score x) (Scored.score y)); [|apply Permutation_refl].
  eapply perm_trans; [apply perm_skip; exact IH | apply perm_swap].
Qed.

Lemma sort_by_score_desc_perm l : Permutation (sort_by_score_desc l) l.
Proof.
  induction l as [|x l IH]; cbn; [constructor|].
  eapply perm_trans; [apply insert_desc_perm | apply perm_skip; exact IH].
Qed.

Lemma insert_desc_hd y x l :
  score_ge y x -> HdRel score_ge y l -> HdRel score_ge y (insert_desc x l).
Proof.
  intros Hx Hl. destruct l as [|z l]; cbn; [constructor; exact Hx|].
  destruct (Qltb (Scored.score x) (Scored.score z)).
  - inversion Hl; subst. constructor. assumption.
  - constructor. exact Hx.
Qed.

Lemma insert_desc_sorted x l :
  Sorted score_ge l -> Sorted score_ge (insert_desc x l).
Proof.
  induction l as [|y l IH]; intros Hs; cbn; [repeat constructor|].
  inversion Hs as [|? ? Hs' Hhd]; subst.
  destruct (Qltb (Scored.score x) (Scored.score y)) eqn:E.
  - apply Qltb_true in E. constructor; [apply IH; exact Hs'|].
    apply insert_desc_hd; [|exact Hhd].
    unfold score_ge. apply Qlt_le_weak. exact E.
  - apply Qltb_false in E. constructor; [exact Hs|].
    constructor. exact E.
Qed.

Lemma sort_by_score_desc_sorted l : Sorted score_ge (sort_by_score_desc l).
Proof.
  induction l as [|x l IH]; cbn; [constructor|].
  apply insert_desc_sorted. exact IH.
Qed.

(** An entry never moves past an entry of the same score. *)
Lemma insert_desc_stable v x l :
  filter (has_score v) (insert_desc x l) = filter (has_score v) (x :: l).
Proof.
  induction l as [|y l IH]; [reflexivity|].
  cbn [insert_desc].
  destruct (Qltb (Scored.score x) (Scored.score y)) eqn:E; [|reflexivity].
  apply Qltb_true in E.
  cbn [filter] in *. rewrite IH.
  destruct (has_score v x) eqn:Hx; [|reflexivity].
  destruct (has_score v y) eqn:Hy; [|reflexivity].
  exfalso. unfold has_score in Hx, Hy.
  apply Qeq_bool_iff in Hx, Hy.
  rewrite Hx, Hy in E. exact (Qlt_irrefl _ E).
Qed.

Lemma sort_by_score_desc_stable v l :
  filter (has_score v) (sort_by_score_desc l) = filter (has_score v) l.
Proof.
  induction l as [|x l IH]; [reflexivity|].
  cbn [sort_by_score_desc fold_right].
  rewrite insert_desc_stable. cbn [filter].
  fold (sort_by_score_desc l). rewrite IH. reflexivity.
Qed.

(** A list whose scores are all equal is left as it is. *)
Lemma sort_by_score_desc_constant v l :
  Forall (fun e => Scored.score e = v) l -> sort_by_score_desc l = l.
Proof.
  induction 1 as [|x l Hx Hl IH]; [reflexivity|].
  cbn [sort_by_score_desc fold_right]. fold (sort_by_score_desc l).
  rewrite IH. destruct l as [|y l]; [reflexivity|].
  cbn [insert_desc]. inversion Hl; subst.
  assert (E : Qltb (Scored.score x) (Scored.score y) = false).
  { apply Qltb_false. replace (Scored.score y) with (Scored.score x) by congruence.
    apply Qle_refl. }
  rewrite E. reflexivity.
Qed.

(** *** The slice *)

Lemma take_upto_nonneg {A : Type} (l : list A) (k : Z) :
  0 <= k -> take_upto l k = firstn (Z.to_nat k) l.
Proof.
  intros Hk. unfold take_upto, adjust_index.
  destruct (k <? 0) eqn:E; [apply Z.ltb_lt in E; lia|].
  destruct (Z_le_gt_dec k (Z.of_nat (List.length l))) as [Hle|Hgt].
  - rewrite Z.min_l by lia. reflexivity.
  - rewrite Z.min_r by lia. rewrite Nat2Z.id.
    rewrite firstn_all. symmetry. apply firstn_all2. lia.
Qed.

Lemma in_firstn {A : Type} (x : A) (n : nat) (l : list A) :
  In x (firstn n l) -> In x l.
Proof.
  intros H. rewrite <- (firstn_skipn n l). apply in_or_app. left. exact H.
Qed.

Section RetrieverFacts.

Variable lower : pystr -> pystr.
Variable fl : Q -> Q.

Lemma collect_candidates query cs :
  forall acc,
    fold_left (score_and_collect lower fl query) cs acc
    = acc ++ candidates lower fl query cs.
Proof.
  unfold candidates.
  induction cs as [|c cs IH]; intros acc; cbn [fold_left map filter].
  - rewrite app_nil_r. reflexivity.
  - rewrite IH. unfold score_and_collect, positive at 2. cbn [Scored.score scored_entry].
    destruct (Qltb 0 (chunk_score lower fl query c)).
    + rewrite <- app_assoc. reflexivity.
    + reflexivity.
Qed.

Lemma simple_text_search_unfold cs query top_k :
  simple_text_search lower fl cs query top_k
  = take_upto (sort_by_score_desc (candidates lower fl query cs)) top_k.
Proof.
  unfold simple_text_search. destruct cs as [|c cs].
  { unfold take_upto. cbn. rewrite firstn_nil. reflexivity. }
  cbv zeta. rewrite collect_candidates. reflexivity.
Qed.

End RetrieverFacts.

(** *** Claims on the retriever *)

(** C6. [top_k] is the number of results to return, a count
    ([top_k >= 0]). For every query and chunk list, the result of
    [simple_text_search] is made of the first [top_k] entries of a list
    [ranked] that holds exactly the chunks whose score is above 0 (those
    with a score [<= 0] are left out), in descending order of score, the
    entries of each score in the order of the original chunk list; so the
    result has at most [top_k] entries, all with a positive score. *)
Theorem simple_text_search_ranking
    (lower : pystr -> pystr) (fl : Q -> Q)
    (cs : list Chunk) (query : pystr) (top_k : Z) :
  0 <= top_k ->
  exists ranked,
    Permutation ranked (candidates lower fl query cs)
    /\ Sorted score_ge ranked
    /\ (forall v, filter (has_score v) ranked
                  = filter (has_score v) (candidates lower fl query cs))
    /\ simple_text_search lower fl cs query top_k
       = firstn (Z.to_nat top_k) ranked
    /\ Z.of_nat (List.length (simple_text_search lower fl cs query top_k)) <= top_k
    /\ Forall (fun e => (0 < Scored.score e)%Q)
         (simple_text_search lower fl cs query top_k).
Proof.
  intros Hk.
  exists (sort_by_score_desc (candidates lower fl query cs)).
  assert (Hres : simple_text_search lower fl cs query top_k
                 = firstn (Z.to_nat top_k)
                     (sort_by_score_desc (candidates lower fl query cs))).
  { rewrite simple_text_search_unfold. apply take_upto_nonneg. exact Hk. }
  split; [apply sort_by_score_desc_perm|].
  split; [apply sort_by_score_desc_sorted|].
  split; [intros v; apply sort_by_score_desc_stable|].
  split; [exact Hres|].
  split.
  - rewrite Hres.
    pose proof (firstn_le_length (Z.to_nat top_k)
                  (sort_by_score_desc (candidates lower fl query cs))). lia.
  - rewrite Hres. apply Forall_forall. intros e He.
    apply in_firstn in He.
    apply (Permutation_in _ (sort_by_score_desc_perm _)) in He.
    unfold candidates in He. apply filter_In in He. destruct He as [_ Hp].
    apply Qltb_true. exact Hp.
Qed.

Lemma simple_text_search_ranking_witness :
  exists ranked,
    map (fun e => chunk_id (Scored.chunk e)) ranked = [0; 1]
    /\ simple_text_search ascii_lower no_rounding policy_chunks (lit "Policy") 1
       = firstn 1 ranked
    /\ Z.of_nat (List.length
         (simple_text_search ascii_lower no_rounding policy_chunks (lit "Policy") 1)) <= 1.
Proof.
  destruct (simple_text_search_ranking ascii_lower no_rounding policy_chunks
              (lit "Policy") 1 ltac:(lia)) as [ranked [_ [_ [_ [_ [Hlen _]]]]]].
  exists (sort_by_score_desc (candidates ascii_lower no_rounding (lit "Policy") policy_chunks)).
  split; [vm_compute; reflexivity|].
  split; [vm_compute; reflexivity | exact Hlen].
Defined.

Lemma contains_nil s : contains [] s = true.
Proof. destruct s; reflexivity. Qed.

(** C8. For the empty query, [top_k >= 1] and a chunk list that is not
    empty, the result is not empty: the empty string is a substring of
    every chunk text, so every chunk gets the score [0 + 0.5], and the
    first [top_k] chunks are returned in their original order, each with
    the score 0.5. The two hypotheses on the runtime say that the lower
    case of the empty string is empty and that 0.5 is a [float]. *)
Theorem empty_query_returns_leading_chunks
    (lower : pystr -> pystr) (fl : Q -> Q)
    (cs : list Chunk) (top_k : Z) :
  lower [] = [] -> fl (1 # 2)%Q = (1 # 2)%Q ->
  cs <> [] -> 1 <= top_k ->
  simple_text_search lower fl cs [] top_k
  = map (fun c => {| Scored.chunk := c; Scored.score := (1 # 2)%Q;
                     Scored.text := chunk_text c |})
      (firstn (Z.to_nat top_k) cs)
  /\ simple_text_search lower fl cs [] top_k <> [].
Proof.
  intros Hlow Hfl Hne Hk.
  assert (Hscore : forall c, chunk_score lower fl [] c = (1 # 2)%Q).
  { intros c. unfold chunk_score. rewrite Hlow. cbn [word_set split split_from nodup].
    rewrite contains_nil. exact Hfl. }
  assert (Hcand : candidates lower fl [] cs
                  = map (fun c => {| Scored.chunk := c; Scored.score := (1 # 2)%Q;
                                     Scored.text := chunk_text c |}) cs).
  { assert (Hentry : forall c, scored_entry lower fl [] c
                       = {| Scored.chunk := c; Scored.score := (1 # 2)%Q;
                            Scored.text := chunk_text c |}).
    { intros c. unfold scored_entry. rewrite Hscore. reflexivity. }
    unfold candidates. clear Hne. induction cs as [|c cs' IH]; [reflexivity|].
    cbn [map filter]. rewrite Hentry. unfold positive at 1. cbn [Scored.score].
    change (Qltb 0 (1 # 2)) with true. cbv iota. f_equal. exact IH. }
  assert (Hres : simple_text_search lower fl cs [] top_k
                 = map (fun c => {| Scored.chunk := c; Scored.score := (1 # 2)%Q;
                                    Scored.text := chunk_text c |})
                     (firstn (Z.to_nat top_k) cs)).
  { rewrite simple_text_search_unfold, Hcand.
    rewrite (sort_by_score_desc_constant (1 # 2)%Q).
    - rewrite take_upto_nonneg by lia. apply firstn_map.
    - apply Forall_forall. intros e He. apply in_map_iff in He.
      destruct He as [c [<- _]]. reflexivity. }
  split; [exact Hres|].
  rewrite Hres. destruct cs as [|c cs']; [contradiction|].
  destruct (Z.to_nat top_k) as [|k] eqn:E; [lia|]. discriminate.
Qed.

Lemma empty_query_returns_leading_chunks_witness :
  map (fun e => (chunk_id (Scored.chunk e), Scored.score e))
    (simple_text_search ascii_lower no_rounding policy_chunks [] 2)
  = [(0, (1 # 2)%Q); (1, (1 # 2)%Q)].
Proof.
  rewrite (proj1 (empty_query_returns_leading_chunks ascii_lower no_rounding
                    policy_chunks 2 eq_refl eq_refl
                    ltac:(discriminate) ltac:(lia))).
  reflexivity.
Defined.

(** C8 as stated fails for [top_k = 0]: the truncation [scored_chunks[:0]]
    leaves nothing, so the empty query returns an empty result on a chunk
    list that is not empty. *)
Lemma empty_query_zero_top_k :
  policy_chunks <> []
  /\ simple_text_search ascii_lower no_rounding policy_chunks [] 0 = [].
Proof.
  split; [discriminate | vm_compute; reflexivity].
Qed.

(** ** Text cleaning *)

(** After the whitespace collapse, no two whitespace characters are
    adjacent; inside a run already replaced, the output does not start
    with a whitespace character. *)
Lemma collapse_no_ws_run s :
  forall in_run,
    has_ws_run (sub_runs is_space [space] in_run s) = false
    /\ (in_run = true -> head_not_space (sub_runs is_space [space] in_run s)).
Proof.
  induction s as [|c s IH]; intros in_run; cbn [sub_runs].
  - split; [reflexivity | intros _; exact I].
  - destruct (is_space c) eqn:Hc.
    + destruct in_run.
      * apply IH.
      * destruct (IH true) as [Hrun Hhead]. specialize (Hhead eq_refl).
        split; [|discriminate].
        cbn [app has_ws_run].
        destruct (sub_runs is_space [space] true s) as [|c2 t] eqn:E;
          [reflexivity|].
        cbn in Hhead. rewrite Hhead, andb_false_r. exact Hrun.
    + destruct (IH false) as [Hrun _].
      split; [|intros _; exact Hc].
      cbn [has_ws_run].
      destruct (sub_runs is_space [space] false s) as [|c2 t] eqn:E;
        [reflexivity|].
      rewrite Hc. exact Hrun.
Qed.

(** After the whitespace collapse, the only whitespace character left is
    the space. *)
Lemma collapse_only_spaces s :
  forall in_run c,
    In c (sub_runs is_space [space] in_run s) ->
    c = space \/ is_space c = false.
Proof.
  induction s as [|x s IH]; intros in_run c Hin; cbn [sub_runs] in Hin.
  - contradiction.
  - destruct (is_space x) eqn:Hx.
    + destruct in_run.
      * exact (IH _ _ Hin).
      * destruct Hin as [<-|Hin]; [left; reflexivity | exact (IH _ _ Hin)].
    + destruct Hin as [<-|Hin]; [right; exact Hx | exact (IH _ _ Hin)].
Qed.

(** On a text without a newline, the newline normalisation changes
    nothing. *)
Lemma newline_runs_noop s :
  (forall c, In c s -> c <> newline) ->
  forall in_run, sub_runs (N.eqb newline) [newline] in_run s = s.
Proof.
  induction s as [|x s IH]; intros Hall in_run; cbn [sub_runs]; [reflexivity|].
  destruct (N.eqb_spec newline x) as [Heq|Hne].
  - exfalso. apply (Hall x); [left; reflexivity | symmetry; exact Heq].
  - f_equal. apply IH. intros c Hc. apply Hall. right. exact Hc.
Qed.

Lemma in_lstrip c s : In c (lstrip s) -> In c s.
Proof.
  induction s as [|x s IH]; cbn; [tauto|].
  destruct (is_space x); [intros H; right; exact (IH H) | tauto].
Qed.

Lemma in_strip c s : In c (strip s) -> In c s.
Proof.
  unfold strip. intros H.
  apply in_rev in H. apply in_lstrip in H. apply in_rev in H.
  apply in_lstrip in H. exact H.
Qed.

Lemma clean_text_chars unicode_alnum text c :
  In c (clean_text unicode_alnum text) -> c = space \/ is_space c = false.
Proof.
  unfold clean_text. intros H. apply in_strip in H.
  unfold re_delete in H. apply filter_In in H. destruct H as [H _].
  unfold re_sub_plus in H. rewrite newline_runs_noop in H.
  - exact (collapse_only_spaces _ _ _ H).
  - intros x Hx. destruct (collapse_only_spaces _ _ _ Hx) as [->|Hs].
    + discriminate.
    + intros ->. discriminate.
Qed.

(** C10, as the code has it. For every input, the output of [clean_text]
    holds no newline, and no whitespace character other than the space:
    the whitespace collapse replaces every run of whitespace (newlines
    included) by one space, so that the text it produces has no two
    whitespace characters in a row and the newline normalisation that
    follows changes nothing. (The deletion of the special characters comes
    after the collapse and can bring two spaces together.) *)
Theorem clean_text_no_newline (unicode_alnum : char -> bool) (text : pystr) :
  ~ In newline (clean_text unicode_alnum text)
  /\ (forall c, In c (clean_text unicode_alnum text) ->
                is_space c = true -> c = space)
  /\ has_ws_run (re_sub_plus is_space [space] text) = false
  /\ re_sub_plus (N.eqb newline) [newline] (re_sub_plus is_space [space] text)
     = re_sub_plus is_space [space] text.
Proof.
  split; [|split; [|split]].
  - intros H. destruct (clean_text_chars _ _ _ H); discriminate.
  - intros c H Hs. destruct (clean_text_chars _ _ _ H) as [->|Hn];
      [reflexivity | congruence].
  - unfold re_sub_plus. apply collapse_no_ws_run.
  - unfold re_sub_plus. apply newline_runs_noop. intros c Hc.
    destruct (collapse_only_spaces _ _ _ Hc) as [->|Hs].
    + discriminate.
    + intros ->. discriminate.
Qed.

(** C10 as stated fails: the character [@] between two spaces is deleted
    after the collapse, and the two spaces stay. *)
Lemma clean_text_space_run :
  (forall unicode_alnum, clean_text unicode_alnum (lit "a @ b") = lit "a  b")
  /\ has_ws_run (lit "a  b") = true.
Proof.
  split; [intros ua; vm_compute; reflexivity | reflexivity].
Qed.

(** ** The batch pipeline *)

(** C7, as the code has it. With an empty list of questions,
    [process_document_and_answer] raises nothing (the model returns a list
    whenever the call returns). When the bytes of the document are
    obtained, the call returns the empty list, whether the processing of
    the document then fails or succeeds, and it returns unless the
    chunking does not finish. When they are not obtained (neither a path
    nor a content is given, or reading the file raises), the handler
    returns a list of one string, the message of the failure. *)
Theorem empty_questions_answers
    (unicode_alnum : char -> bool) (lower : pystr -> pystr) (fl : Q -> Q)
    (world : World) (fuel : nat) (self : SimpleDocumentQAProcessor)
    (pdf_path : option pystr) (pdf_content : option (list Byte.byte)) :
  (forall e,
     document_bytes world pdf_path pdf_content = Raise e ->
     process_document_and_answer unicode_alnum lower fl world fuel self
       pdf_path pdf_content (Some [])
     = Some ([lit "Processing failed: " ++ exn_msg e], self, []))
  /\ (forall content,
        document_bytes world pdf_path pdf_content = Ok content ->
        (forall e,
           extract_text_from_pdf world content = Raise e ->
           process_document_and_answer unicode_alnum lower fl world fuel self
             pdf_path pdf_content (Some [])
           = Some ([], self, []))
        /\ (forall raw cs,
              extract_text_from_pdf world content = Ok raw ->
              create_chunks (document_processor self)
                (clean_text unicode_alnum raw) fuel = Some cs ->
              process_document_and_answer unicode_alnum lower fl world fuel
                self pdf_path pdf_content (Some [])
              = Some ([], set_document self (clean_text unicode_alnum raw) cs, []))
        /\ (forall r,
              process_document_and_answer unicode_alnum lower fl world fuel
                self pdf_path pdf_content (Some []) = Some r ->
              fst (fst r) = [])).
Proof.
  split.
  - intros e He. unfold process_document_and_answer. rewrite He. reflexivity.
  - intros content Hc. unfold process_document_and_answer. rewrite Hc.
    cbn [truthy_opt negb]. unfold process_document.
    split; [|split].
    + intros e He. rewrite He. reflexivity.
    + intros raw cs Hraw Hcs. rewrite Hraw. cbv zeta. rewrite Hcs. reflexivity.
    + intros r Hr.
      destruct (extract_text_from_pdf world content) as [raw|e].
      * cbv zeta in Hr.
        destruct (create_chunks (document_processor self)
                    (clean_text unicode_alnum raw) fuel) as [cs|];
          [|discriminate].
        cbn in Hr. injection Hr as <-. reflexivity.
      * cbn in Hr. injection Hr as <-. reflexivity.
Qed.

Lemma empty_questions_answers_witness :
  process_document_and_answer ascii_only ascii_lower no_rounding offline_world 0
    fresh_qa (Some (lit "policy.pdf")) None (Some [])
  = Some ([lit "Processing failed: No such file or directory"], fresh_qa, [])
  /\ process_document_and_answer ascii_only ascii_lower no_rounding offline_world 0
       fresh_qa None (Some [Byte.x25; Byte.x50]) (Some [])
     = Some ([], fresh_qa, []).
Proof.
  split.
  - exact (proj1 (empty_questions_answers ascii_only ascii_lower no_rounding
                    offline_world 0 fresh_qa (Some (lit "policy.pdf")) None)
             _ eq_refl).
  - exact (proj1 (proj2 (empty_questions_answers ascii_only ascii_lower no_rounding
                           offline_world 0 fresh_qa None
                           (Some [Byte.x25; Byte.x50])) _ eq_refl)
             _ eq_refl).
Defined.

(** C7 as stated fails: with no document at all and an empty list of
    questions, the answer list is not empty, it holds the error message. *)
Lemma empty_questions_without_document :
  process_document_and_answer ascii_only ascii_lower no_rounding offline_world 0
    fresh_qa None None (Some [])
  = Some ([lit "Processing failed: Either pdf_path or pdf_content must be provided"],
          fresh_qa, []).
Proof. reflexivity. Qed.

(** * Further properties of the code *)

(** ** The chunker *)

Lemma rfind_last_before s c lo hi :
  rfind s c lo hi <> -1 ->
  last_before s c (rfind s c lo hi) (adjust_index (len s) hi).
Proof.
  intros H. destruct (rfind_cases s c lo hi) as [Hm|[_ Hl]];
    [contradiction | exact Hl].
Qed.

Lemma slice_whole s hi : len s <= hi -> slice s 0 hi = s.
Proof.
  intros H. unfold slice.
  rewrite (adjust_index_id (len s) 0) by (pose proof (len_nonneg s); lia).
  unfold adjust_index.
  destruct (hi <? 0) eqn:E;
    [apply Z.ltb_lt in E; pose proof (len_nonneg s); lia|].
  rewrite Z.min_r by lia. cbn [Z.to_nat skipn].
  rewrite Z.sub_0_r. unfold len. rewrite Nat2Z.id. apply firstn_all.
Qed.

Section ChunkerMore.

Variable self : SimpleDocumentProcessor.
Variable text : pystr.

Lemma dense_ids_snoc l c :
  dense_ids l -> chunk_id c = Z.of_nat (List.length l) -> dense_ids (l ++ [c]).
Proof.
  unfold dense_ids. intros Hl Hc.
  rewrite map_app, length_app, seq_app, map_app, Hl. cbn. rewrite Hc.
  reflexivity.
Qed.

Lemma chunk_iteration_fields st :
  fields_inv text st -> fields_inv text (chunk_iteration self text st).
Proof.
  intros [Hd [Hn Hw]]. unfold chunk_iteration, fields_inv.
  destruct (truthy (strip (slice text (cur_start st)
                             (window_end self text (cur_start st))))) eqn:E;
    cbn [chunks next_id]; [|auto].
  split; [apply dense_ids_snoc; [exact Hd | exact Hn]|].
  split; [rewrite length_app; cbn; lia|].
  apply Forall_app. split; [exact Hw|]. constructor; [|constructor].
  unfold chunk_wellformed. cbn.
  split; [reflexivity|]. split; [|reflexivity].
  intros Hnil. rewrite Hnil in E. discriminate.
Qed.

Lemma chunk_loop_fields fuel :
  forall st r,
    fields_inv text st -> chunk_loop self text fuel st = Some r ->
    dense_ids r /\ Forall (chunk_wellformed text) r.
Proof.
  induction fuel as [|fuel IH]; intros st r Hinv Hrun;
    rewrite chunk_loop_unfold in Hrun.
  - destruct (cur_start st <? len text); [discriminate|].
    injection Hrun as <-. destruct Hinv as [Hd [_ Hw]]. auto.
  - destruct (cur_start st <? len text).
    + cbv zeta in Hrun. pose proof (chunk_iteration_fields st Hinv) as Hinv'.
      destruct (cur_start (chunk_iteration self text st) >=? len text).
      * injection Hrun as <-. destruct Hinv' as [Hd [_ Hw]]. auto.
      * exact (IH _ _ Hinv' Hrun).
    + injection Hrun as <-. destruct Hinv as [Hd [_ Hw]]. auto.
Qed.

End ChunkerMore.

(** Whatever the parameters, the chunks [create_chunks] returns carry the
    ids 0, 1, 2, ... in order (a window that is empty after trimming
    takes no id), and each chunk records the trimmed text of its window
    [text[start_pos:end_pos]], which is not empty, with [length] the
    number of characters of that trimmed text. *)
Theorem create_chunks_fields
    (self : SimpleDocumentProcessor) (text : pystr) (fuel : nat)
    (r : list Chunk) :
  create_chunks self text fuel = Some r ->
  dense_ids r /\ Forall (chunk_wellformed text) r.
Proof.
  intros Hrun. unfold create_chunks in Hrun.
  refine (chunk_loop_fields self text fuel _ r _ Hrun).
  split; [reflexivity|]. split; [reflexivity | constructor].
Qed.

Lemma create_chunks_fields_witness :
  exists r,
    create_chunks (mkProcessor 50 10) spec_text 3 = Some r
    /\ map chunk_id r = [0; 1; 2]
    /\ dense_ids r /\ Forall (chunk_wellformed spec_text) r.
Proof.
  eexists. split; [vm_compute; reflexivity|]. split; [reflexivity|].
  apply (create_chunks_fields (mkProcessor 50 10) spec_text 3).
  vm_compute; reflexivity.
Defined.

(** A text no longer than [chunk_size - chunk_overlap] is handled in one
    iteration: it comes back as a single chunk that holds the trimmed
    text, with [start_pos = 0] and [end_pos = chunk_size] (the hard cut,
    which may lie beyond the end of the text); an empty text, or one made
    of whitespace only, gives no chunk. *)
Theorem create_chunks_short_text
    (self : SimpleDocumentProcessor) (text : pystr) :
  0 <= chunk_overlap self < chunk_size self ->
  len text <= chunk_size self - chunk_overlap self ->
  create_chunks self text 1
  = Some (if truthy (strip text)
          then [ {| chunk_id := 0;
                    chunk_text := strip text;
                    start_pos := 0;
                    end_pos := chunk_size self;
                    chunk_length := len (strip text) |} ]
          else []).
Proof.
  intros Hpar Hlen. unfold create_chunks. rewrite chunk_loop_unfold.
  cbn [cur_start].
  destruct (0 <? len text) eqn:E.
  - apply Z.ltb_lt in E. cbv zeta.
    assert (Hw : window_end self text 0 = chunk_size self).
    { rewrite window_end_hard_cut; lia. }
    unfold chunk_iteration. cbn [cur_start chunks next_id].
    rewrite Hw, slice_whole by lia.
    assert (G : (chunk_size self - chunk_overlap self >=? len text) = true).
    { rewrite Z.geb_leb. apply Z.leb_le. lia. }
    destruct (truthy (strip text)); cbn [cur_start chunks next_id];
      rewrite G; reflexivity.
  - apply Z.ltb_ge in E. pose proof (len_nonneg text) as Hn.
    assert (Hnil : text = []).
    { destruct text; [reflexivity|]. unfold len in *. cbn in *. lia. }
    rewrite Hnil. reflexivity.
Qed.

Lemma create_chunks_short_text_witness :
  create_chunks default_processor (lit "  Grace period: 30 days.  ") 1
  = Some [ {| chunk_id := 0;
              chunk_text := lit "Grace period: 30 days.";
              start_pos := 0;
              end_pos := 1000;
              chunk_length := 22 |} ].
Proof.
  exact (create_chunks_short_text default_processor
           (lit "  Grace period: 30 days.  ")
           ltac:(cbn; lia) ltac:(vm_compute; discriminate)).
Defined.

Section ChunkerStarts.

Variable self : SimpleDocumentProcessor.
Variable text : pystr.
Hypothesis Hpar : 0 <= chunk_overlap self < chunk_size self.

(** A space early in the first window stops all progress: when the text
    is longer than [chunk_size] and the last space of its first
    [chunk_size] characters stands at offset [p] with [p = chunk_overlap]
    or [0 < p < chunk_overlap - 1], the loop never returns. *)
Lemma early_space_diverges p :
  chunk_size self < len text ->
  last_before text space p (chunk_size self) ->
  0 < p ->
  p = chunk_overlap self \/ p + 1 < chunk_overlap self ->
  diverges_from self text 0.
Proof.
  intros Hn Hl Hp Hcase.
  assert (Hw : window_end self text 0 = p).
  { apply (window_end_snap self text Hpar 0 p (chunk_size self)); try lia.
    exact Hl. }
  destruct Hcase as [->|Hlt].
  - apply diverges_fixpoint; [lia|]. unfold next_start. rewrite Hw. lia.
  - apply diverges_step; [lia|]. unfold next_start. rewrite Hw.
    apply diverges_below_minus_one; try assumption; lia.
Qed.

Lemma window_end_after s : 0 <= s -> s < window_end self text s.
Proof.
  intros Hs.
  destruct (window_end_cases self text Hpar s Hs) as [->|[_ [Hw _]]]; lia.
Qed.

Lemma chunker_starts_step st :
  cur_start st < len text ->
  Forall (starts_inside text) (chunks st) ->
  0 <= cur_start st \/ (cur_start st = -1 /\ chunk_size self < len text) ->
  diverges_from self text (cur_start (chunk_iteration self text st))
  \/ (Forall (starts_inside text) (chunks (chunk_iteration self text st))
      /\ (0 <= cur_start (chunk_iteration self text st)
          \/ (cur_start (chunk_iteration self text st) = -1
              /\ chunk_size self < len text))).
Proof.
  intros Hlt Hall [Hs|[Hs Hn]].
  - assert (Hall' : Forall (starts_inside text)
                      (chunks (chunk_iteration self text st))).
    { destruct (chunk_iteration_chunks self text st) as [->|[c [-> [Hc He]]]];
        [exact Hall|].
      apply Forall_app. split; [exact Hall|]. constructor; [|constructor].
      unfold starts_inside. rewrite Hc, He.
      pose proof (window_end_after (cur_start st) Hs). lia. }
    rewrite chunk_iteration_start.
    destruct (next_start_progress self text Hpar (cur_start st))
      as [Hp|[Hd|[Hm [Hn _]]]]; [lia | | left; exact Hd | ].
    + right. split; [exact Hall' | left; lia].
    + right. split; [exact Hall' | right; split; assumption].
  - right. rewrite chunk_iteration_start.
    rewrite (chunk_iteration_minus_one self text Hpar st Hs) by lia.
    split; [exact Hall|]. left. rewrite Hs. unfold next_start.
    rewrite (window_end_minus_one self text Hpar) by lia. lia.
Qed.

Lemma chunk_loop_starts_inside fuel :
  forall st r,
    Forall (starts_inside text) (chunks st) ->
    0 <= cur_start st \/ (cur_start st = -1 /\ chunk_size self < len text) ->
    chunk_loop self text fuel st = Some r ->
    Forall (starts_inside text) r.
Proof.
  induction fuel as [|fuel IH]; intros st r Hall Hs Hrun;
    rewrite chunk_loop_unfold in Hrun.
  - destruct (cur_start st <? len text); [discriminate|].
    injection Hrun as <-. exact Hall.
  - destruct (cur_start st <? len text) eqn:E;
      [|injection Hrun as <-; exact Hall].
    apply Z.ltb_lt in E. cbv zeta in Hrun.
    destruct (chunker_starts_step st E Hall Hs) as [Hd|[Hall' Hs']].
    + exfalso.
      destruct (cur_start (chunk_iteration self text st) >=? len text) eqn:G.
      * apply diverges_from_lt in Hd.
        rewrite Z.geb_leb in G. apply Z.leb_le in G. lia.
      * destruct (chunk_iteration self text st) as [s i l].
        cbn in Hd. rewrite (Hd fuel i l) in Hrun. discriminate.
    + destruct (cur_start (chunk_iteration self text st) >=? len text).
      * injection Hrun as <-. exact Hall'.
      * exact (IH _ _ Hall' Hs' Hrun).
Qed.

End ChunkerStarts.

(** With [chunk_size > chunk_overlap >= 0], [create_chunks] does not
    return on a text longer than [chunk_size] whose first [chunk_size]
    characters have their last space at an offset [p] with
    [p = chunk_overlap] or [0 < p < chunk_overlap - 1]. The first window
    is cut at that space, and [start] becomes [p - chunk_overlap]. When
    [p = chunk_overlap] that is 0, and the first iteration repeats. When
    [p < chunk_overlap - 1] it is below [-1]: the next iteration sets
    [start] to [-1 - chunk_overlap], where it stays. *)
Theorem create_chunks_diverges_on_early_space
    (self : SimpleDocumentProcessor) (text : pystr) (p : Z) :
  0 <= chunk_overlap self < chunk_size self ->
  chunk_size self < len text ->
  last_before text space p (chunk_size self) ->
  0 < p ->
  p = chunk_overlap self \/ p + 1 < chunk_overlap self ->
  next_start self text 0 = p - chunk_overlap self
  /\ (p + 1 < chunk_overlap self ->
      next_start self text (p - chunk_overlap self) = -1 - chunk_overlap self
      /\ next_start self text (-1 - chunk_overlap self)
         = -1 - chunk_overlap self)
  /\ forall fuel, create_chunks self text fuel = None.
Proof.
  intros Hpar Hn Hl Hp Hcase.
  split; [|split].
  - unfold next_start.
    rewrite (window_end_snap self text Hpar 0 p (chunk_size self));
      [reflexivity | lia | lia | lia | lia | exact Hl].
  - intros Hlt. unfold next_start.
    rewrite !window_end_negative; lia.
  - intros fuel. unfold create_chunks.
    apply (early_space_diverges self text Hpar p Hn Hl Hp Hcase).
Qed.

(** Both cases: the default parameters with the last space at offset 100
    ([start] is 0 again), and [chunk_size = 10], [chunk_overlap = 5] with
    the last space at offset 2 ([start] goes 0, -3, -6, -6, ...). *)
Lemma create_chunks_diverges_on_early_space_witness :
  (next_start default_processor
     (repeat 97%N 100 ++ [space] ++ repeat 98%N 1000) 0 = 0
   /\ create_chunks default_processor
        (repeat 97%N 100 ++ [space] ++ repeat 98%N 1000) 5000 = None)
  /\ (next_start (mkProcessor 10 5) (lit "ab cdefghijklmnop") 0 = -3
      /\ next_start (mkProcessor 10 5) (lit "ab cdefghijklmnop") (-3) = -6
      /\ next_start (mkProcessor 10 5) (lit "ab cdefghijklmnop") (-6) = -6
      /\ create_chunks (mkProcessor 10 5) (lit "ab cdefghijklmnop") 5000 = None).
Proof.
  split.
  - destruct (create_chunks_diverges_on_early_space default_processor
                (repeat 97%N 100 ++ [space] ++ repeat 98%N 1000) 100
                ltac:(cbn; lia) ltac:(vm_compute; reflexivity)
                (rfind_last_before
                   (repeat 97%N 100 ++ [space] ++ repeat 98%N 1000) space 0 1000
                   ltac:(vm_compute; discriminate))
                ltac:(lia) (or_introl eq_refl)) as [H0 [_ Hnone]].
    split; [exact H0 | exact (Hnone 5000%nat)].
  - destruct (create_chunks_diverges_on_early_space (mkProcessor 10 5)
                (lit "ab cdefghijklmnop") 2
                ltac:(cbn; lia) ltac:(vm_compute; reflexivity)
                (rfind_last_before (lit "ab cdefghijklmnop") space 0 10
                   ltac:(vm_compute; discriminate))
                ltac:(lia) (or_intror eq_refl)) as [H0 [Hneg Hnone]].
    destruct (Hneg eq_refl) as [H1 H2].
    split; [exact H0|]. split; [exact H1|]. split; [exact H2|].
    exact (Hnone 5000%nat).
Defined.

(** With [chunk_size > chunk_overlap >= 0], every chunk of a list that
    [create_chunks] returns starts inside the text,
    [0 <= start_pos < len(text)], and has [start_pos < end_pos]: the
    negative values that [start] can take leave no chunk in a run that
    returns. *)
Theorem create_chunks_starts_inside
    (self : SimpleDocumentProcessor) (text : pystr) (fuel : nat)
    (r : list Chunk) :
  0 <= chunk_overlap self < chunk_size self ->
  create_chunks self text fuel = Some r ->
  Forall (starts_inside text) r.
Proof.
  intros Hpar Hrun. unfold create_chunks in Hrun.
  refine (chunk_loop_starts_inside self text Hpar fuel _ r _ _ Hrun);
    [constructor | left; cbn [cur_start]; lia].
Qed.

Lemma create_chunks_starts_inside_witness :
  exists r,
    create_chunks (mkProcessor 10 2) (lit "a bcdefghijklmnop") 5 = Some r
    /\ map start_pos r = [0; 7; 15]
    /\ Forall (starts_inside (lit "a bcdefghijklmnop")) r.
Proof.
  eexists. split; [vm_compute; reflexivity|]. split; [reflexivity|].
  apply (create_chunks_starts_inside (mkProcessor 10 2)
           (lit "a bcdefghijklmnop") 5); [cbn; lia | vm_compute; reflexivity].
Defined.

(** ** The completion client *)

Lemma total_sleep_app t1 t2 :
  total_sleep (t1 ++ t2) = total_sleep t1 + total_sleep t2.
Proof.
  unfold total_sleep. rewrite sleeps_app.
  induction (sleeps t1) as [|d l IH]; cbn; [reflexivity | rewrite IH; lia].
Qed.

Lemma of_nat_to_nat_max m : Z.of_nat (Z.to_nat m) = Z.max 0 m.
Proof. lia. Qed.

Lemma pow2_ge_1 a : 0 <= a -> 1 <= 2 ^ a.
Proof. intros H. pose proof (Z.pow_pos_nonneg 2 a ltac:(lia) H). lia. Qed.

Lemma one_attempt_budget outcome prompt a g :
  0 <= a ->
  (List.length (posted_keys (snd (one_attempt outcome prompt a g))) <= 1)%nat
  /\ 0 <= total_sleep (snd (one_attempt outcome prompt a g)) <= 2 ^ a.
Proof.
  intros Ha. pose proof (pow2_ge_1 a Ha) as Hp. unfold one_attempt.
  destruct (get_next_api_key g) as [[k g']|e]; [|cbn; lia].
  destruct outcome as [status content|e]; [|cbn; lia].
  destruct (status =? 200).
  - destruct content; cbn; lia.
  - destruct (backoff_status status); cbn; lia.
Qed.

Lemma retry_loop_budget http prompt n :
  forall k g,
    (List.length (posted_keys (snd (retry_loop http prompt (seq k n) g))) <= n)%nat
    /\ 0 <= total_sleep (snd (retry_loop http prompt (seq k n) g))
       <= 2 ^ Z.of_nat (k + n) - 2 ^ Z.of_nat k.
Proof.
  induction n as [|n IH]; intros k g; cbn [seq retry_loop].
  - cbn. rewrite Nat.add_0_r. lia.
  - destruct (one_attempt_budget (http k) prompt (Z.of_nat k) g ltac:(lia))
      as [Hp1 Hs1].
    assert (Hpow : 2 ^ Z.of_nat (S k) = 2 * 2 ^ Z.of_nat k)
      by (rewrite Nat2Z.inj_succ; apply Z.pow_succ_r; lia).
    assert (Hmono : 2 ^ Z.of_nat (S k) <= 2 ^ Z.of_nat (k + S n))
      by (apply Z.pow_le_mono_r; lia).
    destruct (one_attempt (http k) prompt (Z.of_nat k) g) as [[r g1] tr1].
    cbn [fst snd] in *.
    destruct r as [ans|].
    + cbn [snd]. split; lia.
    + destruct (IH (S k) g1) as [Hp2 Hs2].
      destruct (retry_loop http prompt (seq (S k) n) g1) as [[r2 g2] tr2].
      cbn [fst snd] in *.
      rewrite posted_keys_app, length_app, total_sleep_app.
      replace (S k + n)%nat with (k + S n)%nat in Hs2 by lia.
      split; lia.
Qed.

(** Whatever the responses and the state of the client, one call of
    [generate_answer] sends at most [max_retries] requests and sleeps at
    most [2 ^ max_retries - 1] seconds in all (3 requests and 7 seconds
    with the default [max_retries = 3]). *)
Theorem generate_answer_budget
    (http : nat -> http_outcome) (g : AIAnswerGenerator)
    (question context : pystr) :
  Z.of_nat (List.length
              (posted_keys (snd (generate_answer http g question context))))
  <= Z.max 0 (max_retries g)
  /\ 0 <= total_sleep (snd (generate_answer http g question context))
     <= 2 ^ Z.max 0 (max_retries g) - 1.
Proof.
  unfold generate_answer.
  destruct (retry_loop_budget http (build_prompt question context)
              (Z.to_nat (max_retries g)) O g) as [Hp Hs].
  cbn [Nat.add] in Hs. change (2 ^ Z.of_nat 0) with 1 in Hs.
  rewrite of_nat_to_nat_max in Hs. split; lia.
Qed.

Lemma rotate_n_key_inv k : forall g, key_inv g -> key_inv (rotate_n k g).
Proof.
  induction k as [|k IH]; intros g H; cbn; [exact H|].
  apply IH. apply rotate_key_inv. exact H.
Qed.

Lemma rotate_n_api_keys k : forall g, api_keys (rotate_n k g) = api_keys g.
Proof. induction k as [|k IH]; intros g; cbn; [reflexivity | rewrite IH; reflexivity]. Qed.

(** After [k] rotations the cursor has moved [k] places round the pool. *)
Lemma rotate_n_cursor k :
  forall g, key_inv g ->
    current_key_index (rotate_n k g)
    = (current_key_index g + Z.of_nat k) mod Z.of_nat (List.length (api_keys g)).
Proof.
  induction k as [|k IH]; intros g H; cbn [rotate_n].
  - rewrite Z.add_0_r. symmetry. apply Z.mod_small. exact H.
  - rewrite (IH (rotate g) (rotate_key_inv g H)).
    unfold rotate. cbn [current_key_index api_keys set_current_key_index].
    rewrite Zplus_mod_idemp_l. f_equal. lia.
Qed.

Lemma rotation_keys_length k : forall g, List.length (rotation_keys k g) = k.
Proof. induction k as [|k IH]; intros g; cbn; [reflexivity | rewrite IH; reflexivity]. Qed.

(** The credentials used during [k] rotations are those at the positions
    [i], [i + 1], ... of the pool, counted modulo its size. *)
Lemma rotation_keys_positions k :
  forall g, key_inv g ->
    rotation_keys k g
    = map (fun j => nth (Z.to_nat ((current_key_index g + Z.of_nat j)
                                   mod Z.of_nat (List.length (api_keys g))))
                      (api_keys g) [])
        (seq 0 k).
Proof.
  induction k as [|k IH]; intros g H; cbn [rotation_keys seq map];
    [reflexivity|].
  f_equal.
  - unfold current_key. rewrite Z.add_0_r, Z.mod_small by exact H. reflexivity.
  - rewrite (IH (rotate g) (rotate_key_inv g H)).
    rewrite <- seq_shift, map_map. apply map_ext. intros j.
    unfold rotate. cbn [current_key_index api_keys set_current_key_index].
    rewrite Zplus_mod_idemp_l.
    replace (current_key_index g + 1 + Z.of_nat j)
      with (current_key_index g + Z.of_nat (S j)) by lia.
    reflexivity.
Qed.

Lemma one_attempt_readable_200 c prompt a g :
  key_inv g ->
  one_attempt (Response 200 (Ok c)) prompt a g
  = (Returned (strip c), rotate g, [Post (current_key g) prompt]).
Proof.
  intros H. unfold one_attempt. rewrite (get_next_api_key_rotates g H).
  reflexivity.
Qed.

Lemma one_attempt_not_readable outcome prompt a g :
  key_inv g -> ~ readable_200 outcome ->
  fst (fst (one_attempt outcome prompt a g)) = NextAttempt
  /\ snd (fst (one_attempt outcome prompt a g)) = rotate g
  /\ posted_keys (snd (one_attempt outcome prompt a g)) = [current_key g].
Proof.
  intros H Hn. unfold one_attempt. rewrite (get_next_api_key_rotates g H).
  destruct outcome as [status content|e]; [|repeat split].
  destruct (status =? 200) eqn:E.
  - apply Z.eqb_eq in E. subst status.
    destruct content as [c|e]; [|repeat split].
    exfalso. apply Hn. exists c. reflexivity.
  - destruct (backoff_status status); repeat split.
Qed.

Lemma retry_loop_all_fail http prompt attempts :
  forall g, key_inv g ->
    (forall a, In a attempts -> ~ readable_200 (http a)) ->
    fst (fst (retry_loop http prompt attempts g)) = None
    /\ snd (fst (retry_loop http prompt attempts g))
       = rotate_n (List.length attempts) g
    /\ posted_keys (snd (retry_loop http prompt attempts g))
       = rotation_keys (List.length attempts) g.
Proof.
  induction attempts as [|a rest IH]; intros g H Hall; cbn [retry_loop].
  - repeat split.
  - destruct (one_attempt_not_readable (http a) prompt (Z.of_nat a) g H
                (Hall a (or_introl eq_refl))) as [Hr [Hg Hp]].
    destruct (one_attempt (http a) prompt (Z.of_nat a) g) as [[r g1] tr1].
    cbn [fst snd] in *. subst r g1.
    destruct (IH (rotate g) (rotate_key_inv g H)
                (fun x Hx => Hall x (or_intror Hx))) as [Hr2 [Hg2 Hp2]].
    destruct (retry_loop http prompt rest (rotate g)) as [[r2 g2] tr2].
    cbn [fst snd List.length rotate_n rotation_keys] in *.
    split; [exact Hr2|]. split; [exact Hg2|].
    rewrite posted_keys_app, Hp, Hp2. reflexivity.
Qed.

Lemma retry_loop_first_success http prompt pre a post c :
  forall g, key_inv g ->
    (forall x, In x pre -> ~ readable_200 (http x)) ->
    http a = Response 200 (Ok c) ->
    fst (fst (retry_loop http prompt (pre ++ a :: post) g)) = Some (strip c)
    /\ snd (fst (retry_loop http prompt (pre ++ a :: post) g))
       = rotate_n (S (List.length pre)) g
    /\ posted_keys (snd (retry_loop http prompt (pre ++ a :: post) g))
       = rotation_keys (S (List.length pre)) g.
Proof.
  induction pre as [|x pre IH]; intros g H Hall Ha; cbn [app retry_loop].
  - rewrite Ha, one_attempt_readable_200 by exact H. repeat split.
  - destruct (one_attempt_not_readable (http x) prompt (Z.of_nat x) g H
                (Hall x (or_introl eq_refl))) as [Hr [Hg Hp]].
    destruct (one_attempt (http x) prompt (Z.of_nat x) g) as [[r g1] tr1].
    cbn [fst snd] in *. subst r g1.
    destruct (IH (rotate g) (rotate_key_inv g H)
                (fun y Hy => Hall y (or_intror Hy)) Ha) as [Hr2 [Hg2 Hp2]].
    destruct (retry_loop http prompt (pre ++ a :: post) (rotate g))
      as [[r2 g2] tr2].
    cbn [fst snd List.length] in *.
    split; [exact Hr2|]. split; [exact Hg2|].
    rewrite posted_keys_app, Hp, Hp2. reflexivity.
Qed.

(** A call returns the answer of the first attempt that is answered 200
    with a readable body: if this is attempt [k] (from 0, below
    [max_retries]), the call returns the trimmed content of that response,
    it has sent [k + 1] requests, with the credentials at the positions
    [i], [i + 1], ..., [i + k] of the pool modulo its size, [i] being the
    cursor before the call, and it leaves the cursor at [i + k + 1]
    modulo the size of the pool. No request follows the success. *)
Theorem generate_answer_first_readable_200
    (http : nat -> http_outcome) (g : AIAnswerGenerator)
    (question context : pystr) (k : nat) (c : pystr) :
  key_inv g ->
  (k < Z.to_nat (max_retries g))%nat ->
  http k = Response 200 (Ok c) ->
  (forall j, (j < k)%nat -> ~ readable_200 (http j)) ->
  fst (fst (generate_answer http g question context)) = Some (strip c)
  /\ posted_keys (snd (generate_answer http g question context))
     = map (fun j => nth (Z.to_nat ((current_key_index g + Z.of_nat j)
                                    mod Z.of_nat (List.length (api_keys g))))
                       (api_keys g) [])
         (seq 0 (S k))
  /\ current_key_index (snd (fst (generate_answer http g question context)))
     = (current_key_index g + Z.of_nat (S k))
       mod Z.of_nat (List.length (api_keys g)).
Proof.
  intros H Hk Ha Hpre. unfold generate_answer.
  assert (Hseq : seq 0 (Z.to_nat (max_retries g))
                 = seq 0 k ++ k :: seq (S k) (Z.to_nat (max_retries g) - S k)).
  { replace (Z.to_nat (max_retries g))
      with (k + S (Z.to_nat (max_retries g) - S k))%nat at 1 by lia.
    rewrite seq_app. reflexivity. }
  rewrite Hseq.
  destruct (retry_loop_first_success http (build_prompt question context)
              (seq 0 k) k (seq (S k) (Z.to_nat (max_retries g) - S k)) c g H)
    as [Hr [Hg Hp]].
  { intros x Hx. apply in_seq in Hx. apply Hpre. lia. }
  { exact Ha. }
  rewrite length_seq in Hg, Hp.
  split; [exact Hr|]. split.
  - rewrite Hp. apply rotation_keys_positions. exact H.
  - rewrite Hg. apply rotate_n_cursor. exact H.
Qed.

Lemma generate_answer_first_readable_200_witness :
  fst (fst (generate_answer flaky_then_ok two_key_client [] []))
  = Some (lit "Thirty days.")
  /\ posted_keys (snd (generate_answer flaky_then_ok two_key_client [] []))
     = [lit "key-A"; lit "key-B"; lit "key-A"]
  /\ current_key_index
       (snd (fst (generate_answer flaky_then_ok two_key_client [] []))) = 1.
Proof.
  apply (generate_answer_first_readable_200 flaky_then_ok two_key_client
           [] [] 2 (lit "  Thirty days. ")).
  - unfold key_inv. cbn. lia.
  - cbn. lia.
  - reflexivity.
  - intros j Hj [c Hc].
    destruct j as [|[|j]]; [discriminate | discriminate | lia].
Defined.

(** A call in which no attempt is answered 200 with a readable body,
    whatever the failures are (other statuses, exceptions of the request,
    unreadable bodies), returns [None] after exactly [max_retries]
    requests, one per credential in rotation order, and leaves the cursor
    [max_retries] places further round the pool. *)
Theorem generate_answer_exhausted
    (http : nat -> http_outcome) (g : AIAnswerGenerator)
    (question context : pystr) :
  key_inv g ->
  (forall j, (j < Z.to_nat (max_retries g))%nat -> ~ readable_200 (http j)) ->
  fst (fst (generate_answer http g question context)) = None
  /\ posted_keys (snd (generate_answer http g question context))
     = map (fun j => nth (Z.to_nat ((current_key_index g + Z.of_nat j)
                                    mod Z.of_nat (List.length (api_keys g))))
                       (api_keys g) [])
         (seq 0 (Z.to_nat (max_retries g)))
  /\ current_key_index (snd (fst (generate_answer http g question context)))
     = (current_key_index g + Z.max 0 (max_retries g))
       mod Z.of_nat (List.length (api_keys g)).
Proof.
  intros H Hall. unfold generate_answer.
  destruct (retry_loop_all_fail http (build_prompt question context)
              (seq 0 (Z.to_nat (max_retries g))) g H) as [Hr [Hg Hp]].
  { intros a Ha. apply in_seq in Ha. apply Hall. lia. }
  rewrite length_seq in Hg, Hp.
  split; [exact Hr|]. split.
  - rewrite Hp. apply rotation_keys_positions. exact H.
  - rewrite Hg, rotate_n_cursor by exact H. rewrite of_nat_to_nat_max. reflexivity.
Qed.

Lemma generate_answer_exhausted_witness :
  fst (fst (generate_answer always_failing two_key_client [] [])) = None
  /\ posted_keys (snd (generate_answer always_failing two_key_client [] []))
     = [lit "key-A"; lit "key-B"; lit "key-A"]
  /\ current_key_index
       (snd (fst (generate_answer always_failing two_key_client [] []))) = 1.
Proof.
  apply (generate_answer_exhausted always_failing two_key_client [] []).
  - unfold key_inv. cbn. lia.
  - intros j Hj [c Hc].
    destruct j as [|[|j]]; discriminate.
Defined.

(** ** Trimming and cleaning *)

Lemma lstrip_head s : head_not_space (lstrip s).
Proof.
  induction s as [|c s IH]; cbn; [exact I|].
  destruct (is_space c) eqn:E; [exact IH | cbn; exact E].
Qed.

Lemma lstrip_fixed s : head_not_space s -> lstrip s = s.
Proof. destruct s as [|c s]; cbn; [reflexivity | intros ->; reflexivity]. Qed.

Lemma lstrip_suffix s : exists pre, s = pre ++ lstrip s.
Proof.
  induction s as [|c s [pre IH]]; cbn.
  - exists []. reflexivity.
  - destruct (is_space c).
    + exists (c :: pre). cbn. f_equal. exact IH.
    + exists []. reflexivity.
Qed.

Lemma head_not_space_app_l s t :
  s <> [] -> head_not_space (s ++ t) -> head_not_space s.
Proof. destruct s; [contradiction | cbn; auto]. Qed.

(** A trimmed string neither starts nor ends with whitespace. *)
Lemma strip_ends s :
  head_not_space (strip s) /\ head_not_space (rev (strip s)).
Proof.
  unfold strip. rewrite rev_involutive.
  split; [|apply lstrip_head].
  destruct (lstrip_suffix (rev (lstrip s))) as [pre Hpre].
  set (u := lstrip (rev (lstrip s))) in *.
  destruct (rev u) as [|c t] eqn:E; [exact I|].
  apply (head_not_space_app_l (c :: t) (rev pre)); [discriminate|].
  rewrite <- E, <- rev_app_distr, <- Hpre, rev_involutive.
  apply lstrip_head.
Qed.

Lemma strip_fixed s :
  head_not_space s -> head_not_space (rev s) -> strip s = s.
Proof.
  intros Hh Hl. unfold strip.
  rewrite (lstrip_fixed s Hh), (lstrip_fixed (rev s) Hl).
  apply rev_involutive.
Qed.

Lemma strip_idempotent s : strip (strip s) = strip s.
Proof. apply strip_fixed; apply strip_ends. Qed.

Lemma filter_all_true {A : Type} (f : A -> bool) (l : list A) :
  (forall x, In x l -> f x = true) -> filter f l = l.
Proof.
  induction l as [|x l IH]; intros H; cbn; [reflexivity|].
  rewrite (H x (or_introl eq_refl)). f_equal.
  apply IH. intros y Hy. apply H. right. exact Hy.
Qed.

Lemma kept_space unicode_alnum : kept_char unicode_alnum space = true.
Proof. reflexivity. Qed.

Lemma collapse_chars s :
  forall in_run c,
    In c (sub_runs is_space [space] in_run s) -> c = space \/ In c s.
Proof.
  induction s as [|x s IH]; intros in_run c Hin; cbn [sub_runs] in Hin.
  - contradiction.
  - destruct (is_space x).
    + destruct in_run.
      * destruct (IH _ _ Hin); [left | right; right]; assumption.
      * destruct Hin as [<-|Hin]; [left; reflexivity|].
        destruct (IH _ _ Hin); [left | right; right]; assumption.
    + destruct Hin as [<-|Hin]; [right; left; reflexivity|].
      destruct (IH _ _ Hin); [left | right; right]; assumption.
Qed.

Lemma collapse_snoc s c :
  is_space c = false ->
  forall in_run,
    sub_runs is_space [space] in_run (s ++ [c])
    = sub_runs is_space [space] in_run s ++ [c].
Proof.
  intros Hc. induction s as [|x s IH]; intros in_run; cbn [app sub_runs].
  - rewrite Hc. reflexivity.
  - destruct (is_space x).
    + destruct in_run; [apply IH | cbn [app]; f_equal; apply IH].
    + cbn [app]. f_equal. apply IH.
Qed.

(** The collapse keeps a first and a last character that are not
    whitespace. *)
Lemma collapse_ends s :
  head_not_space s -> head_not_space (rev s) ->
  head_not_space (re_sub_plus is_space [space] s)
  /\ head_not_space (rev (re_sub_plus is_space [space] s)).
Proof.
  intros Hh Hl. unfold re_sub_plus. split.
  - destruct s as [|c s]; [exact I|]. cbn in Hh. cbn [sub_runs].
    rewrite Hh. cbn. exact Hh.
  - destruct (rev s) as [|c t] eqn:E.
    + assert (s = []) as -> by (apply (f_equal (@rev char)) in E;
                                 rewrite rev_involutive in E; exact E).
      exact I.
    + assert (s = rev t ++ [c]) as ->
        by (apply (f_equal (@rev char)) in E; rewrite rev_involutive in E;
            exact E).
      cbn in Hl. rewrite (collapse_snoc _ c Hl), rev_app_distr. cbn. exact Hl.
Qed.

(** On a text without two whitespace characters in a row, whose only
    whitespace is the space, the collapse changes nothing. *)
Lemma collapse_fixed s :
  has_ws_run s = false ->
  (forall c, In c s -> is_space c = true -> c = space) ->
  forall in_run,
    (in_run = true -> head_not_space s) ->
    sub_runs is_space [space] in_run s = s.
Proof.
  induction s as [|x s IH]; intros Hrun Hsp in_run Hhead; [reflexivity|].
  cbn [sub_runs].
  assert (Hrun' : has_ws_run s = false).
  { cbn [has_ws_run] in Hrun. destruct s as [|y s']; [reflexivity|].
    apply orb_false_iff in Hrun. apply Hrun. }
  assert (Hsp' : forall c, In c s -> is_space c = true -> c = space)
    by (intros c Hc; apply Hsp; right; exact Hc).
  destruct (is_space x) eqn:Hx.
  - destruct in_run.
    + specialize (Hhead eq_refl). cbn in Hhead. congruence.
    + rewrite (Hsp x (or_introl eq_refl) Hx). cbn [app]. f_equal.
      apply IH; try assumption. intros _.
      cbn [has_ws_run] in Hrun. destruct s as [|y s']; [exact I|].
      apply orb_false_iff in Hrun. destruct Hrun as [Hxy _].
      rewrite Hx in Hxy. cbn in Hxy. cbn. exact Hxy.
  - f_equal. apply IH; try assumption. discriminate.
Qed.

Section CleanTextFacts.

Variable unicode_alnum : char -> bool.

Local Abbreviation clean := (clean_text unicode_alnum).
Local Abbreviation kept := (kept_char unicode_alnum).

Lemma clean_text_kept text c : In c (clean text) -> kept c = true.
Proof.
  unfold clean_text. intros H. apply in_strip in H.
  unfold re_delete in H. apply filter_In in H. destruct H as [_ H].
  rewrite negb_involutive in H. exact H.
Qed.

(** On a text made of kept characters, with the space as only whitespace
    and no whitespace at either end, [clean_text] is the whitespace
    collapse alone. *)
Lemma clean_text_is_collapse text :
  (forall c, In c text -> kept c = true) ->
  (forall c, In c text -> is_space c = true -> c = space) ->
  head_not_space text -> head_not_space (rev text) ->
  clean text = re_sub_plus is_space [space] text.
Proof.
  intros Hk Hsp Hh Hl. unfold clean_text.
  assert (Hnl : re_sub_plus (N.eqb newline) [newline]
                  (re_sub_plus is_space [space] text)
                = re_sub_plus is_space [space] text).
  { unfold re_sub_plus. apply newline_runs_noop. intros c Hc.
    destruct (collapse_only_spaces _ _ _ Hc) as [->|Hs];
      [discriminate | intros ->; discriminate]. }
  rewrite Hnl. unfold re_delete. rewrite filter_all_true.
  - destruct (collapse_ends text Hh Hl) as [Hh' Hl'].
    apply strip_fixed; assumption.
  - intros c Hc. rewrite negb_involutive. unfold re_sub_plus in Hc.
    destruct (collapse_chars _ _ _ Hc) as [->|Hin];
      [apply kept_space | apply Hk; exact Hin].
Qed.

End CleanTextFacts.

(** Every character of the output of [clean_text] is a word character, a
    space or one of [. , ; : ! ? - ( )], and the output neither starts nor
    ends with a space. *)
Theorem clean_text_alphabet (unicode_alnum : char -> bool) (text : pystr) :
  (forall c, In c (clean_text unicode_alnum text) ->
             is_word unicode_alnum c = true \/ c = space
             \/ In c (lit ".,;:!?-()"))
  /\ head_not_space (clean_text unicode_alnum text)
  /\ head_not_space (rev (clean_text unicode_alnum text)).
Proof.
  split.
  - intros c Hc. pose proof (clean_text_kept _ _ _ Hc) as Hk.
    unfold kept_char in Hk. apply orb_true_iff in Hk.
    destruct Hk as [Hk|Hk].
    + apply orb_true_iff in Hk. destruct Hk as [Hw|Hs]; [left; exact Hw|].
      right. left.
      destruct (clean_text_chars _ _ _ Hc) as [->|Hn];
        [reflexivity | congruence].
    + right. right. apply existsb_exists in Hk. destruct Hk as [x [Hx He]].
      apply N.eqb_eq in He. subst x. exact Hx.
  - unfold clean_text. apply strip_ends.
Qed.

(** One pass of [clean_text] can leave runs of spaces, a second pass
    removes them, and the result of the second pass is a fixed point:
    cleaning it again changes nothing. *)
Theorem clean_text_twice_fixed (unicode_alnum : char -> bool) (text : pystr) :
  has_ws_run (clean_text unicode_alnum (clean_text unicode_alnum text)) = false
  /\ clean_text unicode_alnum
       (clean_text unicode_alnum (clean_text unicode_alnum text))
     = clean_text unicode_alnum (clean_text unicode_alnum text).
Proof.
  set (t := clean_text unicode_alnum text).
  assert (Hk : forall c, In c t -> kept_char unicode_alnum c = true)
    by (intros c; apply clean_text_kept).
  assert (Hsp : forall c, In c t -> is_space c = true -> c = space).
  { intros c Hc Hs. destruct (clean_text_chars _ _ _ Hc) as [->|Hn];
      [reflexivity | congruence]. }
  assert (Hends : head_not_space t /\ head_not_space (rev t))
    by (unfold t, clean_text; apply strip_ends).
  destruct Hends as [Hh Hl].
  rewrite (clean_text_is_collapse unicode_alnum t Hk Hsp Hh Hl).
  set (u := re_sub_plus is_space [space] t).
  assert (Hrun : has_ws_run u = false)
    by (unfold u, re_sub_plus; apply collapse_no_ws_run).
  split; [exact Hrun|].
  assert (Hsp' : forall c, In c u -> is_space c = true -> c = space).
  { intros c Hc Hs. unfold u, re_sub_plus in Hc.
    destruct (collapse_only_spaces _ _ _ Hc) as [->|Hn];
      [reflexivity | congruence]. }
  destruct (collapse_ends t Hh Hl) as [Hh' Hl']. fold u in Hh', Hl'.
  rewrite (clean_text_is_collapse unicode_alnum u).
  - unfold re_sub_plus. apply collapse_fixed; [exact Hrun | exact Hsp' | discriminate].
  - intros c Hc. unfold u, re_sub_plus in Hc.
    destruct (collapse_chars _ _ _ Hc) as [->|Hin];
      [apply kept_space | apply Hk; exact Hin].
  - exact Hsp'.
  - exact Hh'.
  - exact Hl'.
Qed.

(** ** The lexical retriever *)

Lemma filter_all_false {A : Type} (f : A -> bool) (l : list A) :
  (forall x, In x l -> f x = false) -> filter f l = [].
Proof.
  induction l as [|x l IH]; intros H; cbn; [reflexivity|].
  rewrite (H x (or_introl eq_refl)).
  apply IH. intros y Hy. apply H. right. exact Hy.
Qed.

Lemma take_upto_firstn {A : Type} (l : list A) (k : Z) :
  exists n, take_upto l k = firstn n l.
Proof. unfold take_upto. eexists. reflexivity. Qed.

(** Every entry of a result is the entry of one of the chunks searched. *)
Lemma simple_text_search_entries lower fl cs query top_k e :
  In e (simple_text_search lower fl cs query top_k) ->
  exists c, In c cs /\ e = scored_entry lower fl query c
            /\ positive e = true.
Proof.
  rewrite simple_text_search_unfold.
  destruct (take_upto_firstn
              (sort_by_score_desc (candidates lower fl query cs)) top_k)
    as [n ->].
  intros H. apply in_firstn in H.
  apply (Permutation_in _ (sort_by_score_desc_perm _)) in H.
  unfold candidates in H. apply filter_In in H. destruct H as [H Hp].
  apply in_map_iff in H. destruct H as [c [<- Hc]].
  exists c. auto.
Qed.

(** A query that shares no word with any chunk and is a substring of none
    finds nothing, for every [top_k]. The hypothesis on the runtime says
    that a quotient equal to zero is rounded to zero. *)
Theorem simple_text_search_no_match
    (lower : pystr -> pystr) (fl : Q -> Q)
    (cs : list Chunk) (query : pystr) (top_k : Z) :
  (forall q, (q == 0)%Q -> (fl q == 0)%Q) ->
  (forall c, In c cs ->
     intersection (word_set (lower query)) (word_set (lower (chunk_text c))) = []
     /\ contains (lower query) (lower (chunk_text c)) = false) ->
  simple_text_search lower fl cs query top_k = [].
Proof.
  intros Hfl Hno. rewrite simple_text_search_unfold.
  assert (Hcand : candidates lower fl query cs = []).
  { unfold candidates. apply filter_all_false. intros e He.
    apply in_map_iff in He. destruct He as [c [<- Hc]].
    destruct (Hno c Hc) as [Hi Hs].
    unfold positive, scored_entry. cbn [Scored.score].
    unfold chunk_score. rewrite Hi, Hs. cbn [List.length Z.of_nat].
    apply Qltb_false.
    destruct (word_set (lower query)) as [|w ws].
    - apply Qle_refl.
    - rewrite (Hfl (0 # Pos.of_nat (List.length (w :: ws)))) by reflexivity.
      apply Qle_refl. }
  rewrite Hcand. unfold take_upto. cbn. apply firstn_nil.
Qed.

Lemma simple_text_search_no_match_witness :
  simple_text_search ascii_lower no_rounding policy_chunks
    (lit "deductible amount") 3 = [].
Proof.
  apply (simple_text_search_no_match ascii_lower no_rounding policy_chunks
           (lit "deductible amount") 3).
  - intros q Hq. exact Hq.
  - intros c Hc. cbn in Hc.
    destruct Hc as [<-|[<-|[<-|[]]]]; split; vm_compute; reflexivity.
Defined.

(** A chunk whose lower-cased text contains the lower-cased query is
    never filtered out: when [top_k] is at least the number of chunks, its
    entry is in the result. The hypotheses on the runtime say that
    rounding keeps a quotient that is not negative from becoming negative
    and a sum of at least 0.5 above zero. *)
Theorem simple_text_search_phrase_match
    (lower : pystr -> pystr) (fl : Q -> Q)
    (cs : list Chunk) (query : pystr) (top_k : Z) (c : Chunk) :
  (forall q, (0 <= q)%Q -> (0 <= fl q)%Q) ->
  (forall q, (1 # 2 <= q)%Q -> (0 < fl q)%Q) ->
  In c cs ->
  contains (lower query) (lower (chunk_text c)) = true ->
  Z.of_nat (List.length cs) <= top_k ->
  In (scored_entry lower fl query c)
     (simple_text_search lower fl cs query top_k).
Proof.
  intros Hnn Hpos Hc Hs Hk. rewrite simple_text_search_unfold.
  rewrite take_upto_nonneg by lia.
  assert (Hin : In (scored_entry lower fl query c) (candidates lower fl query cs)).
  { unfold candidates. apply filter_In. split; [apply in_map; exact Hc|].
    unfold positive, scored_entry. cbn [Scored.score].
    unfold chunk_score. rewrite Hs. apply Qltb_true. apply Hpos.
    assert (H0 : (0 <= match word_set (lower query) with
                       | [] => 0
                       | _ :: _ =>
                           fl (Z.of_nat (List.length
                                 (intersection (word_set (lower query))
                                    (word_set (lower (chunk_text c)))))
                               # Pos.of_nat (List.length (word_set (lower query))))
                       end)%Q).
    { destruct (word_set (lower query)); [apply Qle_refl|].
      apply Hnn. unfold Qle. cbn. lia. }
    rewrite <- (Qplus_0_l (1 # 2)) at 1.
    apply Qplus_le_compat; [exact H0 | apply Qle_refl]. }
  rewrite firstn_all2.
  - apply (Permutation_in _ (Permutation_sym (sort_by_score_desc_perm _))).
    exact Hin.
  - rewrite (Permutation_length (sort_by_score_desc_perm _)).
    unfold candidates.
    pose proof (filter_length_le positive (map (scored_entry lower fl query) cs))
      as Hle.
    rewrite length_map in Hle. lia.
Qed.

Lemma simple_text_search_phrase_match_witness :
  In (scored_entry ascii_lower no_rounding (lit "POLICY COVERS")
        (mkChunk 0 (lit "the policy covers") 0 17 17))
     (simple_text_search ascii_lower no_rounding policy_chunks
        (lit "POLICY COVERS") 3).
Proof.
  apply (simple_text_search_phrase_match ascii_lower no_rounding policy_chunks
           (lit "POLICY COVERS") 3).
  - intros q Hq. exact Hq.
  - intros q Hq. unfold no_rounding.
    apply (Qlt_le_trans _ (1 # 2)); [reflexivity | exact Hq].
  - left. reflexivity.
  - vm_compute; reflexivity.
  - cbn. lia.
Defined.

(** ** Answering questions *)

Lemma simple_text_search_length lower fl cs query top_k :
  0 <= top_k ->
  Z.of_nat (List.length (simple_text_search lower fl cs query top_k)) <= top_k.
Proof.
  intros Hk. rewrite simple_text_search_unfold, take_upto_nonneg by exact Hk.
  pose proof (firstn_le_length (Z.to_nat top_k)
                (sort_by_score_desc (candidates lower fl query cs))). lia.
Qed.

(** [answer_question] never touches the document; it uses at most three
    chunks of the document as context; a success carries an answer that is
    not empty, the confidence 0.8 and no error, and needs a generator; a
    failure carries the confidence 0; and without a document, or without
    a generator, it fails without sending a request and leaves the
    processor as it was. *)
Theorem answer_question_outcomes
    (lower : pystr -> pystr) (fl : Q -> Q) (world : World) (i : nat)
    (self : SimpleDocumentQAProcessor) (question : pystr) :
  (document_processor (snd (fst (answer_question lower fl world i self question)))
     = document_processor self
   /\ document_chunks (snd (fst (answer_question lower fl world i self question)))
      = document_chunks self
   /\ document_text (snd (fst (answer_question lower fl world i self question)))
      = document_text self)
  /\ ((List.length (context_used
         (fst (fst (answer_question lower fl world i self question)))) <= 3)%nat
      /\ incl (context_used
                 (fst (fst (answer_question lower fl world i self question))))
              (document_chunks self))
  /\ (success (fst (fst (answer_question lower fl world i self question))) = true ->
      answer (fst (fst (answer_question lower fl world i self question))) <> []
      /\ confidence (fst (fst (answer_question lower fl world i self question)))
         = (8 # 10)%Q
      /\ error (fst (fst (answer_question lower fl world i self question))) = None
      /\ ai_generator self <> None)
  /\ (success (fst (fst (answer_question lower fl world i self question))) = false ->
      confidence (fst (fst (answer_question lower fl world i self question))) = 0%Q)
  /\ (document_chunks self = [] \/ ai_generator self = None ->
      success (fst (fst (answer_question lower fl world i self question))) = false
      /\ answer_question lower fl world i self question
         = (fst (fst (answer_question lower fl world i self question)), self, [])).
Proof.
  unfold answer_question.
  destruct (document_chunks self) as [|c0 cs0] eqn:Hdoc.
  { cbn [fst snd failed_answer success answer context_used confidence error
         List.length].
    split; [auto|]. split; [split; [lia | intros x Hx; contradiction]|].
    split; [discriminate|]. split; [reflexivity|]. auto. }
  destruct (simple_text_search lower fl (c0 :: cs0) question 3) as [|e es] eqn:Hsearch.
  { cbn [fst snd failed_answer success answer context_used confidence error
         List.length].
    split; [auto|]. split; [split; [lia | intros x Hx; contradiction]|].
    split; [discriminate|]. split; [reflexivity|]. auto. }
  assert (Hlen : (List.length (map Scored.chunk (e :: es)) <= 3)%nat).
  { rewrite length_map, <- Hsearch.
    pose proof (simple_text_search_length lower fl (c0 :: cs0) question 3
                  ltac:(lia)). lia. }
  assert (Hincl : incl (map Scored.chunk (e :: es)) (c0 :: cs0)).
  { intros x Hx. apply in_map_iff in Hx. destruct Hx as [y [<- Hy]].
    rewrite <- Hsearch in Hy.
    destruct (simple_text_search_entries _ _ _ _ _ _ Hy) as [c [Hc [-> _]]].
    exact Hc. }
  destruct (ai_generator self) as [g|] eqn:Hgen.
  - destruct (generate_answer (completion world i) g question
                (join [newline; newline] (map Scored.text (e :: es))))
      as [[ai_answer g'] tr].
    assert (Hstate : document_processor (set_ai_generator self g')
                       = document_processor self
                     /\ document_chunks (set_ai_generator self g') = c0 :: cs0
                     /\ document_text (set_ai_generator self g')
                        = document_text self)
      by (cbn; auto).
    destruct ai_answer as [a|]; [destruct (truthy a) eqn:Ha|];
      cbn [fst snd success answer context_used confidence error].
    + split; [exact Hstate|]. split; [split; assumption|].
      split; [|split; [discriminate | intros [Hd|Hg]; discriminate]].
      intros _. split; [intros ->; discriminate|].
      split; [reflexivity|]. split; [reflexivity | discriminate].
    + split; [exact Hstate|]. split; [split; assumption|].
      split; [discriminate|]. split; [reflexivity|].
      intros [Hd|Hg]; discriminate.
    + split; [exact Hstate|]. split; [split; assumption|].
      split; [discriminate|]. split; [reflexivity|].
      intros [Hd|Hg]; discriminate.
  - cbn [fst snd failed_answer success answer context_used confidence error
         List.length].
    split; [auto|]. split; [split; [lia | intros x Hx; contradiction]|].
    split; [discriminate|]. split; [reflexivity|]. auto.
Qed.

(** ** The batch pipeline *)

Lemma answer_all_length lower fl world qs :
  forall i self,
    List.length (fst (fst (answer_all lower fl world i qs self)))
    = List.length qs.
Proof.
  induction qs as [|q qs IH]; intros i self; cbn [answer_all];
    [reflexivity|].
  destruct (answer_question lower fl world i self q) as [[r self'] tr].
  specialize (IH (S i) self').
  destruct (answer_all lower fl world (S i) qs self') as [[answers self''] tr'].
  cbn [fst snd List.length] in *. rewrite IH. reflexivity.
Qed.

Lemma truthy_opt_path (path : pystr) :
  path <> [] -> truthy_opt (Some path) = true.
Proof. destruct path; [contradiction | reflexivity]. Qed.

Lemma process_document_and_answer_length
    unicode_alnum lower fl world fuel self pdf_path pdf_content questions r :
  questions <> []
  \/ (exists content, document_bytes world pdf_path pdf_content = Ok content) ->
  process_document_and_answer unicode_alnum lower fl world fuel self
    pdf_path pdf_content (Some questions) = Some r ->
  List.length (fst (fst r)) = List.length questions.
Proof.
  intros Hq Hrun. unfold process_document_and_answer in Hrun.
  destruct (document_bytes world pdf_path pdf_content) as [content|e].
  - assert (Hqs : (if negb (truthy_opt (Some questions)) then []
                   else questions) = questions)
      by (destruct questions; reflexivity).
    rewrite Hqs in Hrun.
    destruct (process_document unicode_alnum world fuel self content)
      as [[doc_result self']|]; [|discriminate].
    destruct (negb (doc_success doc_result)).
    + injection Hrun as <-. cbn [fst]. apply length_map.
    + injection Hrun as <-. apply answer_all_length.
  - destruct Hq as [Hq|[content Hc]]; [|discriminate].
    assert (Ht : truthy_opt (Some questions) = true)
      by (destruct questions; [contradiction | reflexivity]).
    rewrite Ht in Hrun. injection Hrun as <-. cbn [fst]. apply length_map.
Qed.

(** For a list of questions that is not empty, whenever
    [process_document_and_answer] returns, it returns exactly one string
    per question: on every path, through the handler of the exceptions,
    through the failure of the document processing, and through the
    answers themselves. *)
Theorem one_answer_per_question
    (unicode_alnum : char -> bool) (lower : pystr -> pystr) (fl : Q -> Q)
    (world : World) (fuel : nat) (self : SimpleDocumentQAProcessor)
    (pdf_path : option pystr) (pdf_content : option (list Byte.byte))
    (questions : list pystr)
    (r : list pystr * SimpleDocumentQAProcessor * list event) :
  questions <> [] ->
  process_document_and_answer unicode_alnum lower fl world fuel self
    pdf_path pdf_content (Some questions) = Some r ->
  List.length (fst (fst r)) = List.length questions.
Proof.
  intros Hq Hrun.
  eapply process_document_and_answer_length; [left; exact Hq | exact Hrun].
Qed.

Lemma one_answer_per_question_witness :
  exists r,
    process_document_and_answer ascii_only ascii_lower no_rounding
      offline_world 0 fresh_qa None (Some [Byte.x25; Byte.x50])
      (Some [lit "What is covered?"; lit "What is the grace period?"])
    = Some r
    /\ List.length (fst (fst r)) = 2%nat.
Proof.
  eexists. split; [reflexivity|].
  apply (one_answer_per_question ascii_only ascii_lower no_rounding
           offline_world 0 fresh_qa None (Some [Byte.x25; Byte.x50])
           [lit "What is covered?"; lit "What is the grace period?"]);
    [discriminate | reflexivity].
Defined.

Lemma answer_question_no_generator lower fl world i self question :
  ai_generator self = None ->
  exists msg,
    answer_question lower fl world i self question
    = (failed_answer msg, self, []).
Proof.
  intros Hgen. unfold answer_question. rewrite Hgen.
  destruct (document_chunks self); [eexists; reflexivity|].
  destruct (simple_text_search lower fl _ question 3); eexists; reflexivity.
Qed.

(** Without a generator (no credential was found when the processor was
    built), every question is answered with the fixed string
    ["Error: Failed to generate answer"], whatever the document and the
    question, no request is sent and the processor is left as it was. *)
Theorem answer_all_without_generator
    (lower : pystr -> pystr) (fl : Q -> Q) (world : World) (i : nat)
    (questions : list pystr) (self : SimpleDocumentQAProcessor) :
  ai_generator self = None ->
  answer_all lower fl world i questions self
  = (map (fun _ => lit "Error: Failed to generate answer") questions, self, []).
Proof.
  intros Hgen. revert i.
  induction questions as [|q qs IH]; intros i; cbn [answer_all map];
    [reflexivity|].
  destruct (answer_question_no_generator lower fl world i self q Hgen)
    as [msg ->].
  cbn [success error failed_answer]. rewrite IH. reflexivity.
Qed.

Lemma answer_all_without_generator_witness :
  answer_all ascii_lower no_rounding offline_world 0
    [lit "What is covered?"; lit "Who is insured?"] fresh_qa
  = ([lit "Error: Failed to generate answer";
      lit "Error: Failed to generate answer"], fresh_qa, []).
Proof.
  exact (answer_all_without_generator ascii_lower no_rounding offline_world 0
           [lit "What is covered?"; lit "Who is insured?"] fresh_qa eq_refl).
Defined.

(** ** The constructor of the processor *)

Lemma load_numbered_keys_flat_map getenv :
  load_numbered_keys getenv
  = flat_map (fun name =>
                match getenv name with
                | Some key => if truthy key then [strip key] else []
                | None => []
                end) numbered_slots.
Proof.
  unfold load_numbered_keys.
  assert (H : forall l acc,
    fold_left
      (fun api_keys name =>
         match getenv name with
         | Some key => if truthy key then api_keys ++ [strip key] else api_keys
         | None => api_keys
         end) l acc
    = acc ++ flat_map (fun name =>
                match getenv name with
                | Some key => if truthy key then [strip key] else []
                | None => []
                end) l).
  { induction l as [|name l IH]; intros acc; cbn [fold_left flat_map].
    - rewrite app_nil_r. reflexivity.
    - rewrite IH.
      destruct (getenv name) as [key|]; [destruct (truthy key)|];
        cbn [app]; rewrite <- ?app_assoc; reflexivity. }
  apply (H numbered_slots []).
Qed.

(** The processor has a generator exactly when a credential was loaded,
    and [ai_enabled] says so; the generator then holds the loaded
    credentials in order, with the cursor on the first one. The numbered
    slots win: the old format is read only when they give nothing. A new
    processor holds no document. *)
Theorem new_processor_generator (getenv : pystr -> option pystr) :
  match ai_generator (new_processor getenv) with
  | Some g =>
      ai_enabled (new_processor getenv) = true
      /\ load_api_keys getenv <> []
      /\ api_keys g = load_api_keys getenv
      /\ current_key_index g = 0
      /\ max_retries g = 3
      /\ key_inv g
  | None =>
      ai_enabled (new_processor getenv) = false
      /\ load_api_keys getenv = []
  end
  /\ (load_numbered_keys getenv <> [] ->
      load_api_keys getenv = load_numbered_keys getenv)
  /\ (load_numbered_keys getenv = [] ->
      load_api_keys getenv = load_old_format_keys getenv)
  /\ document_chunks (new_processor getenv) = []
  /\ document_text (new_processor getenv) = [].
Proof.
  split; [|split; [|split; [|split; reflexivity]]].
  - unfold new_processor. cbv zeta. cbn [ai_generator ai_enabled].
    destruct (load_api_keys getenv) as [|k ks]; [split; reflexivity|].
    cbn [init]. split; [reflexivity|]. split; [discriminate|].
    do 3 (split; [reflexivity|]).
    apply (init_key_inv (k :: ks) default_model). reflexivity.
  - intros H. unfold load_api_keys.
    destruct (load_numbered_keys getenv); [contradiction | reflexivity].
  - intros H. unfold load_api_keys. rewrite H. reflexivity.
Qed.

(** The credentials read from the old format are never empty and carry
    no whitespace at either end. *)
Theorem old_format_keys_trimmed (getenv : pystr -> option pystr) :
  Forall (fun key => key <> [] /\ strip key = key
                     /\ head_not_space key /\ head_not_space (rev key))
    (load_old_format_keys getenv).
Proof.
  unfold load_old_format_keys. cbv zeta.
  destruct (truthy _); [|constructor].
  apply Forall_forall. intros key Hk.
  apply in_map_iff in Hk. destruct Hk as [raw [<- Hraw]].
  apply filter_In in Hraw. destruct Hraw as [_ Ht].
  split; [intros Hnil; rewrite Hnil in Ht; discriminate|].
  split; [apply strip_idempotent | apply strip_ends].
Qed.

(** A numbered slot set to whitespace only puts the empty credential in
    the pool, and the processor counts as enabled: the test [if key] is
    made before the trimming. *)
Theorem blank_numbered_key_enables
    (getenv : pystr -> option pystr) (name value : pystr) :
  In name numbered_slots ->
  getenv name = Some value ->
  value <> [] -> strip value = [] ->
  In [] (load_api_keys getenv)
  /\ ai_enabled (new_processor getenv) = true.
Proof.
  intros Hname Hval Hne Hstrip.
  assert (Hin : In [] (load_numbered_keys getenv)).
  { rewrite load_numbered_keys_flat_map. apply in_flat_map.
    exists name. split; [exact Hname|]. rewrite Hval.
    destruct value; [contradiction|]. cbn [truthy]. rewrite Hstrip.
    left. reflexivity. }
  assert (Hkeys : In [] (load_api_keys getenv)).
  { unfold load_api_keys.
    destruct (load_numbered_keys getenv); [contradiction | exact Hin]. }
  split; [exact Hkeys|].
  unfold new_processor. cbv zeta. cbn [ai_enabled].
  destruct (load_api_keys getenv); [contradiction | reflexivity].
Qed.

Lemma blank_numbered_key_enables_witness :
  In [] (load_api_keys blank_slot_env)
  /\ ai_enabled (new_processor blank_slot_env) = true.
Proof.
  apply (blank_numbered_key_enables blank_slot_env (lit "A4F_API_KEY_2") (lit "  ")).
  - right. left. reflexivity.
  - reflexivity.
  - discriminate.
  - reflexivity.
Defined.

(** ** The summary *)

Lemma slice_prefix_length s n : 0 <= n -> len (slice s 0 n) <= n.
Proof.
  intros Hn. unfold slice, len.
  pose proof (firstn_le_length
                (Z.to_nat (adjust_index (Z.of_nat (List.length s)) n
                           - adjust_index (Z.of_nat (List.length s)) 0))
                (skipn (Z.to_nat (adjust_index (Z.of_nat (List.length s)) 0)) s)).
  pose proof (adjust_index_range (Z.of_nat (List.length s)) n ltac:(lia)).
  pose proof (adjust_index_range (Z.of_nat (List.length s)) 0 ltac:(lia)).
  unfold adjust_index in *.
  destruct (n <? 0) eqn:E; [apply Z.ltb_lt in E; lia|].
  cbn [Z.ltb Z.compare] in *. lia.
Qed.

(** After a document has been processed with success, the summary agrees
    with the report of [process_document] on the numbers of characters
    and of chunks, and its preview has at most 503 characters, the whole
    text when that has at most 500. When the cleaned text is empty, the
    summary says that no document was processed, although the processing
    reported a success. *)
Theorem summary_after_processing
    (unicode_alnum : char -> bool) (fl : Q -> Q) (world : World) (fuel : nat)
    (self self' : SimpleDocumentQAProcessor) (pdf_content : list Byte.byte)
    (report : DocResult) :
  process_document unicode_alnum world fuel self pdf_content
    = Some (report, self') ->
  doc_success report = true ->
  match get_document_summary fl self' with
  | NotProcessed _ =>
      total_characters report = 0 /\ document_text self' = []
  | Processed characters n_chunks _ _ preview =>
      characters = total_characters report
      /\ n_chunks = chunks_count report
      /\ 0 < characters
      /\ len preview <= 503
      /\ (characters <= 500 -> preview = document_text self')
  end.
Proof.
  intros Hrun Hok. unfold process_document in Hrun.
  destruct (extract_text_from_pdf world pdf_content) as [raw|e].
  - cbv zeta in Hrun.
    destruct (create_chunks (document_processor self)
                (clean_text unicode_alnum raw) fuel) as [cs|]; [|discriminate].
    injection Hrun as <- <-.
    unfold get_document_summary.
    cbn [document_text document_chunks set_document total_characters chunks_count].
    set (t := clean_text unicode_alnum raw).
    destruct t as [|c t'] eqn:Et; cbn [truthy]; [split; reflexivity|].
    rewrite <- Et.
    assert (Hpos : 0 < len t) by (rewrite Et; unfold len; cbn; lia).
    split; [reflexivity|]. split; [reflexivity|]. split; [exact Hpos|].
    destruct (len t >? 500) eqn:G.
    + rewrite Z.gtb_ltb in G. apply Z.ltb_lt in G. split; [|lia].
      pose proof (slice_prefix_length t 500 ltac:(lia)) as Hs.
      unfold len in *. rewrite length_app. cbn [List.length lit] in *.
      change (List.length (lit "...")) with 3%nat. lia.
    + rewrite Z.gtb_ltb in G. apply Z.ltb_ge in G. split; [lia | reflexivity].
  - injection Hrun as <- <-. discriminate.
Qed.

Lemma summary_after_processing_witness :
  exists report self',
    process_document ascii_only one_page_world 1 fresh_qa [Byte.x25]
      = Some (report, self')
    /\ get_document_summary no_rounding self'
       = Processed 22 1 (22 # 1) (lit "simple_text_search")
           (lit "Grace period: 30 days.")
    /\ match get_document_summary no_rounding self' with
       | NotProcessed _ =>
           total_characters report = 0 /\ document_text self' = []
       | Processed characters n_chunks _ _ preview =>
           characters = total_characters report
           /\ n_chunks = chunks_count report
           /\ 0 < characters
           /\ len preview <= 503
           /\ (characters <= 500 -> preview = document_text self')
       end.
Proof.
  eexists. eexists. split; [reflexivity|]. split; [vm_compute; reflexivity|].
  exact (summary_after_processing ascii_only no_rounding one_page_world 1
           fresh_qa _ [Byte.x25] _ eq_refl eq_refl).
Defined.

(** ** The HTTP endpoint *)

(** Through the endpoint, a request whose document is downloaded and
    written to a temporary file gets, whenever the handler returns,
    exactly one answer per question, also for an empty list of questions:
    the path of the temporary file is always given and readable, so the
    exception handler of [process_document_and_answer] is never reached. *)
Theorem endpoint_one_answer_per_question
    (unicode_alnum : char -> bool) (lower : pystr -> pystr) (fl : Q -> Q)
    (getenv : pystr -> option pystr) (net : Net) (world : World) (fuel : nat)
    (processor : option SimpleDocumentQAProcessor)
    (documents : pystr) (questions : list pystr)
    (content : list Byte.byte) (temp_path : pystr)
    (response : list pystr + HTTPException)
    (processor' : option SimpleDocumentQAProcessor) :
  fetch net documents = Downloaded content ->
  write_temp net content = Ok temp_path ->
  temp_path <> [] ->
  hackrx_run unicode_alnum lower fl getenv net world fuel processor
    VALID_TOKEN documents questions = Some (response, processor') ->
  exists answers,
    response = inl answers
    /\ List.length answers = List.length questions
    /\ processor' <> None.
Proof.
  intros Hfetch Htemp Hpath Hrun.
  unfold hackrx_run in Hrun.
  change (verify_token VALID_TOKEN) with (@inl pystr HTTPException VALID_TOKEN) in Hrun.
  unfold process_questions in Hrun. cbv zeta in Hrun.
  rewrite Hfetch, Htemp in Hrun.
  set (proc := match processor with Some p => p | None => new_processor getenv end) in *.
  destruct (process_document_and_answer unicode_alnum lower fl
              (with_file world temp_path content) fuel proc
              (Some temp_path) None (Some questions))
    as [[[answers proc'] tr]|] eqn:Hpdaa; [|discriminate].
  injection Hrun as <- <-.
  exists answers. split; [reflexivity|]. split; [|discriminate].
  refine (process_document_and_answer_length _ _ _ _ _ _ _ _ _ _ _ Hpdaa).
  right. exists content. unfold document_bytes.
  rewrite (truthy_opt_path temp_path Hpath). cbn [truthy_opt negb andb with_file read_file].
  unfold pystr_eqb. destruct (list_eq_dec N.eq_dec temp_path temp_path);
    [reflexivity | contradiction].
Qed.

Lemma endpoint_one_answer_per_question_witness :
  hackrx_run ascii_only ascii_lower no_rounding blank_slot_env sample_net
    offline_world 0 None VALID_TOKEN (lit "https://example.org/policy.pdf") []
  = Some (inl [], Some (new_processor blank_slot_env)).
Proof.
  destruct (hackrx_run ascii_only ascii_lower no_rounding blank_slot_env
              sample_net offline_world 0 None VALID_TOKEN
              (lit "https://example.org/policy.pdf") [])
    as [[response processor']|] eqn:Hrun; [|vm_compute in Hrun; discriminate].
  destruct (endpoint_one_answer_per_question ascii_only ascii_lower no_rounding
              blank_slot_env sample_net offline_world 0 None
              (lit "https://example.org/policy.pdf") []
              [Byte.x25; Byte.x50] (lit "/tmp/tmpab12cd.pdf")
              response processor' eq_refl eq_refl ltac:(discriminate) Hrun)
    as [answers [-> [Hlen _]]].
  destruct answers; [|discriminate].
  vm_compute in Hrun. injection Hrun as <-. reflexivity.
Defined.

(** ** The chunker: text that no chunk holds *)

Section ChunkerSkips.

Variable self : SimpleDocumentProcessor.
Variable text : pystr.
Hypothesis Hpar : 0 <= chunk_overlap self < chunk_size self.

Let cs := chunk_size self.
Let ov := chunk_overlap self.
Let n := len text.

(** From a start at or beyond [cs - 1 - ov], no later chunk reaches back
    to an offset below it. *)
Lemma chunk_loop_beyond j fuel :
  j < cs - 1 - ov ->
  forall st r,
    Forall (fun c => ~ in_window j c) (chunks st) ->
    cs - 1 - ov <= cur_start st ->
    chunk_loop self text fuel st = Some r ->
    Forall (fun c => ~ in_window j c) r.
Proof.
  intros Hj.
  induction fuel as [|fuel IH]; intros st r Hall Hs Hrun;
    rewrite chunk_loop_unfold in Hrun.
  - destruct (cur_start st <? len text); [discriminate|].
    injection Hrun as <-. exact Hall.
  - destruct (cur_start st <? len text) eqn:E;
      [|injection Hrun as <-; exact Hall].
    apply Z.ltb_lt in E. cbv zeta in Hrun.
    assert (Hall' : Forall (fun c => ~ in_window j c)
                      (chunks (chunk_iteration self text st))).
    { destruct (chunk_iteration_chunks self text st) as [->|[c [-> [Hc _]]]];
        [exact Hall|].
      apply Forall_app. split; [exact Hall|]. constructor; [|constructor].
      unfold in_window. rewrite Hc. unfold cs, ov in *. lia. }
    destruct (cur_start (chunk_iteration self text st) >=? len text) eqn:G;
      [injection Hrun as <-; exact Hall'|].
    destruct (next_start_progress self text Hpar (cur_start st))
      as [Hp|[Hd|[_ [_ Hb]]]].
    + unfold cs, ov in *. lia.
    + apply (IH _ _ Hall'); [|exact Hrun].
      rewrite chunk_iteration_start. unfold cs, ov in *. lia.
    + exfalso. rewrite <- chunk_iteration_start in Hd.
      destruct (chunk_iteration self text st) as [s i l].
      cbn in Hd. rewrite (Hd fuel i l) in Hrun. discriminate.
    + exfalso. unfold cs, ov in *. lia.
Qed.

Lemma chunk_loop_skips j fuel r :
  cs < n ->
  last_before text space (ov - 1) cs ->
  0 < ov - 1 ->
  ov - 1 <= j < cs - 1 - ov ->
  chunk_loop self text fuel {| cur_start := 0; next_id := 0; chunks := [] |}
    = Some r ->
  Forall (fun c => ~ in_window j c) r.
Proof.
  intros Hn Hl Hp Hj Hrun.
  assert (Hw : window_end self text 0 = ov - 1).
  { apply (window_end_snap self text Hpar 0 (ov - 1) cs);
      unfold cs, ov, n in *; try lia. exact Hl. }
  assert (Hlt0 : (0 <? len text) = true)
    by (apply Z.ltb_lt; unfold cs, ov, n in *; lia).
  assert (Hltm : (-1 <? len text) = true)
    by (apply Z.ltb_lt; unfold cs, ov, n in *; lia).
  destruct fuel as [|fuel]; rewrite chunk_loop_unfold in Hrun;
    cbn [cur_start] in Hrun; rewrite Hlt0 in Hrun; [discriminate|].
  cbv zeta in Hrun.
  set (st1 := chunk_iteration self text
                {| cur_start := 0; next_id := 0; chunks := [] |}) in *.
  assert (Hs1 : cur_start st1 = -1).
  { unfold st1. rewrite chunk_iteration_start. cbn [cur_start].
    unfold next_start. rewrite Hw. unfold ov. lia. }
  assert (Hall1 : Forall (fun c => ~ in_window j c) (chunks st1)).
  { unfold st1.
    destruct (chunk_iteration_chunks self text
                {| cur_start := 0; next_id := 0; chunks := [] |})
      as [->|[c [-> [Hc He]]]]; [constructor|].
    cbn [chunks app cur_start] in *. constructor; [|constructor].
    unfold in_window. rewrite Hc, He, Hw. lia. }
  rewrite Hs1 in Hrun.
  assert (G1 : (-1 >=? len text) = false).
  { rewrite Z.geb_leb. apply Z.leb_gt. unfold cs, ov, n in *. lia. }
  rewrite G1 in Hrun.
  destruct fuel as [|fuel]; rewrite chunk_loop_unfold in Hrun;
    rewrite Hs1, Hltm in Hrun; [discriminate|].
  cbv zeta in Hrun.
  assert (Hc2 : chunks (chunk_iteration self text st1) = chunks st1)
    by (apply (chunk_iteration_minus_one self text Hpar st1 Hs1);
        unfold cs, n in *; lia).
  assert (Hs2 : cur_start (chunk_iteration self text st1) = cs - 1 - ov).
  { rewrite chunk_iteration_start, Hs1. unfold next_start.
    rewrite (window_end_minus_one self text Hpar) by (unfold cs, n in *; lia).
    reflexivity. }
  destruct (cur_start (chunk_iteration self text st1) >=? len text).
  - replace r with (chunks (chunk_iteration self text st1)) by congruence.
    rewrite Hc2. exact Hall1.
  - refine (chunk_loop_beyond j fuel ltac:(lia) _ r _ _ Hrun).
    + rewrite Hc2. exact Hall1.
    + rewrite Hs2. lia.
Qed.

End ChunkerSkips.

(** Text can be dropped. With [chunk_size > chunk_overlap >= 0], when the
    text is longer than [chunk_size] and the last space of its first
    [chunk_size] characters stands at offset [chunk_overlap - 1 > 0], the
    first window is cut at that space, [start] becomes [-1], the next
    window is empty, and the scan resumes at
    [chunk_size - 1 - chunk_overlap]: in the list returned, no chunk has
    in its window an offset [j] with
    [chunk_overlap - 1 <= j < chunk_size - 1 - chunk_overlap]. *)
Theorem create_chunks_skips_text
    (self : SimpleDocumentProcessor) (text : pystr) (fuel : nat)
    (r : list Chunk) (j : Z) :
  0 <= chunk_overlap self < chunk_size self ->
  chunk_size self < len text ->
  last_before text space (chunk_overlap self - 1) (chunk_size self) ->
  0 < chunk_overlap self - 1 ->
  chunk_overlap self - 1 <= j < chunk_size self - 1 - chunk_overlap self ->
  create_chunks self text fuel = Some r ->
  Forall (fun c => ~ in_window j c) r.
Proof.
  intros Hpar Hn Hl Hp Hj Hrun.
  exact (chunk_loop_skips self text Hpar j fuel r Hn Hl Hp Hj Hrun).
Qed.

(** With the default parameters: 99 letters, a space, 1000 letters. The
    two chunks returned hold the offsets 0..98 and 899..1099; the
    offsets 99..898 are in no chunk. *)
Lemma create_chunks_skips_text_witness :
  exists r,
    create_chunks default_processor
      (repeat 97%N 99 ++ [space] ++ repeat 98%N 1000) 3 = Some r
    /\ map (fun c => (start_pos c, end_pos c)) r = [(0, 99); (899, 1899)]
    /\ Forall (fun c => ~ in_window 500 c) r.
Proof.
  eexists. split; [vm_compute; reflexivity|]. split; [reflexivity|].
  apply (create_chunks_skips_text default_processor
           (repeat 97%N 99 ++ [space] ++ repeat 98%N 1000) 3 _ 500).
  - cbn; lia.
  - vm_compute; reflexivity.
  - exact (rfind_last_before
             (repeat 97%N 99 ++ [space] ++ repeat 98%N 1000) space 0 1000
             ltac:(vm_compute; discriminate)).
  - cbn; lia.
  - cbn; lia.
  - vm_compute; reflexivity.
Defined.

(** ** The chunker without overlap: the chunks tile the text *)

Lemma in_lstrip_nonspace x s :
  In x s -> is_space x = false -> In x (lstrip s).
Proof.
  intros Hin Hx. induction s as [|c s IH]; [contradiction|].
  cbn [lstrip]. destruct (is_space c) eqn:Hc.
  - destruct Hin as [->|Hin]; [congruence | exact (IH Hin)].
  - exact Hin.
Qed.

Lemma in_strip_nonspace x s :
  In x s -> is_space x = false -> In x (strip s).
Proof.
  intros Hin Hx. unfold strip. apply -> in_rev.
  apply in_lstrip_nonspace; [|exact Hx]. apply -> in_rev.
  apply in_lstrip_nonspace; assumption.
Qed.

(** A character of the text at an offset of the window is a character of
    the slice. *)
Lemma in_slice text s e j x :
  0 <= s <= j -> j < e -> char_at text j = Some x -> In x (slice text s e).
Proof.
  intros Hs He Hx. unfold char_at in Hx.
  destruct (j <? 0) eqn:E; [apply Z.ltb_lt in E; lia|].
  assert (Hj : (Z.to_nat j < List.length text)%nat)
    by (apply nth_error_Some; congruence).
  unfold slice, len.
  rewrite (adjust_index_id _ s) by lia.
  assert (Ha : j < adjust_index (Z.of_nat (List.length text)) e).
  { unfold adjust_index. destruct (e <? 0) eqn:G;
      [apply Z.ltb_lt in G; lia | lia]. }
  apply (nth_error_In _ (Z.to_nat (j - s))).
  rewrite nth_error_firstn.
  assert (Hlt : (Z.to_nat (j - s)
                 <? Z.to_nat (adjust_index (Z.of_nat (List.length text)) e - s))%nat
                = true) by (apply Nat.ltb_lt; lia).
  rewrite Hlt, nth_error_skipn.
  replace (Z.to_nat s + Z.to_nat (j - s))%nat with (Z.to_nat j) by lia.
  exact Hx.
Qed.

Lemma strongly_sorted_snoc {A : Type} (R : A -> A -> Prop) (l : list A) (x : A) :
  StronglySorted R l -> Forall (fun a => R a x) l ->
  StronglySorted R (l ++ [x]).
Proof.
  induction l as [|a l IH]; intros Hs Hall; cbn [app].
  - repeat constructor.
  - inversion Hs as [|? ? Hs' Ha]; subst.
    inversion Hall as [|? ? Hax Hall']; subst.
    constructor; [apply IH; assumption|].
    apply Forall_app. split; [exact Ha | constructor; [exact Hax | constructor]].
Qed.

Section ChunkerTiling.

Variable self : SimpleDocumentProcessor.
Variable text : pystr.
Hypothesis Hov : chunk_overlap self = 0.
Hypothesis Hcs : 0 < chunk_size self.

Lemma tiling_step st :
  cur_start st < len text ->
  tiling_inv text st -> tiling_inv text (chunk_iteration self text st).
Proof.
  intros Hlt [Hs [Hsorted [Hends Hcover]]].
  assert (Hpar : 0 <= chunk_overlap self < chunk_size self) by lia.
  pose proof (window_end_after self text Hpar (cur_start st) Hs) as Hw.
  assert (Hnext : cur_start (chunk_iteration self text st)
                  = window_end self text (cur_start st)).
  { rewrite chunk_iteration_start. unfold next_start. lia. }
  unfold tiling_inv. rewrite Hnext.
  split; [lia|].
  unfold chunk_iteration.
  destruct (truthy (strip (slice text (cur_start st)
                             (window_end self text (cur_start st))))) eqn:E;
    cbn [chunks].
  - split; [|split].
    + apply strongly_sorted_snoc; [exact Hsorted|].
      eapply Forall_impl; [|exact Hends]. cbv beta. intros c Hc. cbn. lia.
    + apply Forall_app. split.
      * eapply Forall_impl; [|exact Hends]. cbv beta. intros c Hc. lia.
      * constructor; [cbn; lia | constructor].
    + intros j x Hj Hx Hsp.
      destruct (Z_lt_le_dec j (cur_start st)) as [Hold|Hnew].
      * destruct (Hcover j x ltac:(lia) Hx Hsp) as [c [Hc Hin]].
        exists c. split; [apply in_or_app; left; exact Hc | exact Hin].
      * eexists. split; [apply in_or_app; right; left; reflexivity|].
        unfold in_window. cbn. lia.
  - split; [exact Hsorted|]. split.
    + eapply Forall_impl; [|exact Hends]. cbv beta. intros c Hc. lia.
    + intros j x Hj Hx Hsp.
      destruct (Z_lt_le_dec j (cur_start st)) as [Hold|Hnew].
      * exact (Hcover j x ltac:(lia) Hx Hsp).
      * exfalso.
        assert (Hin : In x (strip (slice text (cur_start st)
                                     (window_end self text (cur_start st))))).
        { apply in_strip_nonspace; [|exact Hsp].
          apply (in_slice text _ _ j); [lia | lia | exact Hx]. }
        destruct (strip (slice text (cur_start st)
                           (window_end self text (cur_start st))));
          [contradiction | discriminate].
Qed.

Lemma chunk_loop_tiling fuel :
  forall st r,
    tiling_inv text st -> chunk_loop self text fuel st = Some r ->
    StronglySorted (fun a b => end_pos a <= start_pos b) r
    /\ (forall j x, char_at text j = Some x -> is_space x = false ->
                    exists c, In c r /\ in_window j c).
Proof.
  assert (Hfinal : forall st,
    tiling_inv text st -> len text <= cur_start st ->
    StronglySorted (fun a b => end_pos a <= start_pos b) (chunks st)
    /\ (forall j x, char_at text j = Some x -> is_space x = false ->
                    exists c, In c (chunks st) /\ in_window j c)).
  { intros st [Hs [Hsorted [_ Hcover]]] Hge. split; [exact Hsorted|].
    intros j x Hx Hsp. apply (Hcover j x); [|exact Hx | exact Hsp].
    unfold char_at in Hx. destruct (j <? 0) eqn:E; [discriminate|].
    apply Z.ltb_ge in E.
    assert ((Z.to_nat j < List.length text)%nat)
      by (apply nth_error_Some; congruence).
    unfold len in Hge. lia. }
  induction fuel as [|fuel IH]; intros st r Hinv Hrun;
    rewrite chunk_loop_unfold in Hrun.
  - destruct (cur_start st <? len text) eqn:E; [discriminate|].
    apply Z.ltb_ge in E.
    replace r with (chunks st) by congruence. apply Hfinal; assumption.
  - destruct (cur_start st <? len text) eqn:E.
    + apply Z.ltb_lt in E. cbv zeta in Hrun.
      pose proof (tiling_step st E Hinv) as Hinv'.
      destruct (cur_start (chunk_iteration self text st) >=? len text) eqn:G.
      * rewrite Z.geb_leb in G. apply Z.leb_le in G.
        replace r with (chunks (chunk_iteration self text st)) by congruence.
        apply Hfinal; assumption.
      * exact (IH _ _ Hinv' Hrun).
    + apply Z.ltb_ge in E.
      replace r with (chunks st) by congruence. apply Hfinal; assumption.
Qed.

End ChunkerTiling.

(** Without overlap ([chunk_overlap = 0], [chunk_size >= 1]) the chunks
    tile the text: in the list returned, the window of each chunk ends
    where or before the window of every later chunk starts, and every
    character of the text that is not whitespace lies in the window of a
    chunk. *)
Theorem create_chunks_tiles_without_overlap
    (self : SimpleDocumentProcessor) (text : pystr) (fuel : nat)
    (r : list Chunk) :
  chunk_overlap self = 0 -> 0 < chunk_size self ->
  create_chunks self text fuel = Some r ->
  StronglySorted (fun a b => end_pos a <= start_pos b) r
  /\ (forall j x, char_at text j = Some x -> is_space x = false ->
                  exists c, In c r /\ in_window j c).
Proof.
  intros Hov Hcs Hrun. unfold create_chunks in Hrun.
  refine (chunk_loop_tiling self text Hov Hcs fuel _ r _ Hrun).
  split; [cbn; lia|]. split; [constructor|]. split; [constructor|].
  intros j x Hj. cbn in Hj. lia.
Qed.

Lemma create_chunks_tiles_without_overlap_witness :
  exists r,
    create_chunks (mkProcessor 10 0) (lit "a bcdefghijklmnop") 17 = Some r
    /\ map (fun c => (start_pos c, end_pos c)) r = [(0, 1); (1, 11); (11, 21)]
    /\ exists c, In c r /\ in_window 4 c.
Proof.
  eexists. split; [vm_compute; reflexivity|]. split; [reflexivity|].
  exact (proj2 (create_chunks_tiles_without_overlap (mkProcessor 10 0)
                  (lit "a bcdefghijklmnop") 17 _ eq_refl eq_refl eq_refl)
           4 100%N eq_refl eq_refl).
Defined.
